(** * CoffeDB storage engine: shallow embedding and verified properties

    The development follows the packages of the repository:
    the B-tree ([internal/storage], btree), the skip-list memtable,
    the write-ahead log, the secondary index and the engine coordinator.

    Conventions of the embedding.
    - Go [string]s are [string]s, compared bytewise ([String.ltb], [String.leb]).
    - Go [int64] fields are [Z] with the two's-complement wrap written out
      ([wrap64]).
    - A value of type [interface{}] is an [iface]: either a [*Document] or a
      plain [Value]; a type assertion is a [match].
    - A function that can hit a run-time panic or return a Go [error]
      returns an [outcome]. *)

From Stdlib Require Import ZArith Lia Bool DecimalString.
From Stdlib Require Import Floats.PrimFloat Floats.SpecFloat Floats.FloatOps.
From Stdlib Require Floats.FloatAxioms.
From stdpp Require Import gmap strings list fin_maps sorting.

#[local] Set Warnings "-register-all".
Local Open Scope Z_scope.
Local Open Scope string_scope.
Local Open Scope list_scope.

(** ** Go run-time outcomes *)

(** The [error] values the storage package constructs. *)
Inductive error : Type :=
  | ErrKeyNotFound        (* "key not found"            (btree)  *)
  | ErrDocumentNotFound   (* "document not found"       (engine) *)
  | ErrIndexExists        (* "index already exists"     (engine) *)
  | ErrWAL (cause : string) (* "failed to write to WAL: ..." / WAL errors *).

Inductive outcome (A : Type) : Type :=
  | Done (a : A)          (* normal return, error = nil *)
  | Fail (e : error)      (* normal return with a non-nil error *)
  | Panic.                (* run-time panic (index or slice out of range, ...) *)
Arguments Done {A} a.
Arguments Fail {A} e.
Arguments Panic {A}.

#[global] Instance outcome_ret : MRet outcome := fun A a => Done a.
#[global] Instance outcome_bind : MBind outcome := fun A B f m =>
  match m with
  | Done a => f a
  | Fail e => Fail e
  | Panic => Panic
  end.

(** The value returned, if the call returned one. *)
Definition outcome_to_option {A} (m : outcome A) : option A :=
  match m with
  | Done a => Some a
  | _ => None
  end.

(** [a[i]] on a slice: panics when out of range. *)
Definition index {A} (l : list A) (i : nat) : outcome A :=
  match l !! i with
  | Some x => Done x
  | None => Panic
  end.

(** ** Integers and strings *)

Definition wrap64 (z : Z) : Z := (z + 2 ^ 63) mod 2 ^ 64 - 2 ^ 63.

(** [len(s)] as an [int]. *)
Definition len (s : string) : Z := Z.of_nat (String.length s).

(** [s[a:]] for [a <= len(s)]. *)
Definition slice_from (s : string) (a : nat) : string :=
  String.substring a (String.length s - a) s.

(** [s[:b]] for [b <= len(s)]. *)
Definition slice_to (s : string) (b : nat) : string :=
  String.substring 0 b s.

(** [strings.HasPrefix(s, prefix)]:
    [len(s) >= len(prefix) && s[:len(prefix)] == prefix]. *)
Definition HasPrefix (s prefix : string) : bool :=
  (String.length prefix <=? String.length s)%nat
  && String.eqb (slice_to s (String.length prefix)) prefix.

(** ** Document values *)

Inductive IntKind : Type :=
  | KInt | KInt8 | KInt16 | KInt32 | KInt64
  | KUint | KUint8 | KUint16 | KUint32 | KUint64.

#[global] Instance IntKind_eq_dec : EqDecision IntKind.
Proof. solve_decision. Defined.

(** The dynamic values a document body holds. *)
Inductive Value : Type :=
  | VNil
  | VBool (b : bool)
  | VInt (k : IntKind) (z : Z)
  | VFloat32 (f : float)
  | VFloat64 (f : float)
  | VString (s : string)
  | VBytes (b : list Ascii.ascii)
  | VSlice (l : list Value)
  | VMap (m : list (string * Value)).

Definition Time : Type := Z.

Record Document : Type := mkDocument {
  ID : string;
  Data : gmap string Value;
  CreatedAt : Time;
  UpdatedAt : Time;
  Version : Z
}.

Inductive iface : Type :=
  | IDoc (d : Document)   (* dynamic type *Document *)
  | IVal (v : Value).     (* any other dynamic type, nil included *)

Definition inil : iface := IVal VNil.

(** ** [sort.Search] and [sort.SearchStrings]

    The binary search of package [sort]: the smallest index [i] in
    [[0, n)] at which [f i] is true, [n] if there is none (for a
    monotone [f]).  The loop halves [j - i], so [n] iterations are more
    than it ever runs. *)
Fixpoint sort_Search_loop (fuel : nat) (f : nat -> bool) (i j : nat) : nat :=
  match fuel with
  | O => i
  | S fuel' =>
      if (i <? j)%nat then
        let h := ((i + j) / 2)%nat in
        if negb (f h) then sort_Search_loop fuel' f (h + 1)%nat j
        else sort_Search_loop fuel' f i h
      else i
  end.

Definition sort_Search (n : nat) (f : nat -> bool) : nat :=
  sort_Search_loop n f 0%nat n.

(** [a[i] >= x] on strings; [a[i]] is in range whenever the search asks. *)
Definition SearchStrings (a : list string) (x : string) : nat :=
  sort_Search (length a) (fun i =>
    match a !! i with
    | Some s => String.leb x s
    | None => true
    end).

(** ** Disk B-tree *)

Module BTree.

Definition btreeOrder : nat := 256.

Inductive BTreeNode : Type := mkNode {
  IsLeaf : bool;
  Keys : list string;
  Values : list iface;
  Children : list BTreeNode;
  Modified : bool
}.

(** The tree: [root] may be nil. *)
Record BTree : Type := mkBTree { root : option BTreeNode }.

(** [loadRoot] on an empty file. *)
Definition NewBTree : BTree :=
  mkBTree (Some (mkNode true [] [] [] false)).

(** Insertion of [x] at position [pos] of a slice:
    [s = append(s, zero); copy(s[pos+1:], s[pos:]); s[pos] = x].
    The slice expression [s[pos+1:]] panics when [pos] exceeds the old
    length. *)
Definition insert_at {A} (s : list A) (pos : nat) (x : A) : outcome (list A) :=
  if (pos <=? length s)%nat then Done (take pos s ++ x :: drop pos s)
  else Panic.

(** [s[pos] = x]. *)
Definition store_at {A} (s : list A) (pos : nat) (x : A) : outcome (list A) :=
  if (pos <? length s)%nat then Done (<[pos := x]> s) else Panic.

Definition insertIntoLeaf (node : BTreeNode) (key : string) (value : iface)
  : outcome BTreeNode :=
  let pos := SearchStrings (Keys node) key in
  if (pos <? length (Keys node))%nat && bool_decide (Keys node !! pos = Some key) then
    vs ← store_at (Values node) pos value;
    Done (mkNode (IsLeaf node) (Keys node) vs (Children node) true)
  else
    ks ← insert_at (Keys node) pos key;
    vs ← insert_at (Values node) pos value;
    Done (mkNode (IsLeaf node) ks vs (Children node) true).

Definition findChildIndex (node : BTreeNode) (key : string) : nat :=
  SearchStrings (Keys node) key.

(** [splitChild(parent, childIndex)]. *)
Definition splitChild (parent : BTreeNode) (childIndex : nat) : outcome BTreeNode :=
  child ← index (Children parent) childIndex;
  let midIndex := (length (Keys child) / 2)%nat in
  if negb ((midIndex + 1 <=? length (Keys child))%nat
           && (midIndex + 1 <=? length (Values child))%nat
           && (IsLeaf child || (midIndex + 1 <=? length (Children child))%nat))
  then Panic
  else
    let newNode :=
      mkNode (IsLeaf child)
             (drop (midIndex + 1) (Keys child))
             (drop (midIndex + 1) (Values child))
             (if IsLeaf child then [] else drop (midIndex + 1) (Children child))
             false in
    midKey ← index (Keys child) midIndex;
    midValue ← index (Values child) midIndex;
    let child' :=
      mkNode (IsLeaf child)
             (take midIndex (Keys child))
             (take midIndex (Values child))
             (if IsLeaf child then Children child
              else take (midIndex + 1) (Children child))
             (Modified child) in
    ks ← insert_at (Keys parent) childIndex midKey;
    vs ← insert_at (Values parent) childIndex midValue;
    cs ← insert_at (<[childIndex := child']> (Children parent)) (childIndex + 1) newNode;
    Done (mkNode (IsLeaf parent) ks vs cs true).

Fixpoint insert (key : string) (value : iface) (node : BTreeNode) {struct node}
  : outcome BTreeNode :=
  if IsLeaf node then insertIntoLeaf node key value
  else
    let childIndex := findChildIndex node key in
    r ← index (List.map (insert key value) (Children node)) childIndex;
    child' ← r;
    let node' :=
      mkNode (IsLeaf node) (Keys node) (Values node)
             (<[childIndex := child']> (Children node)) (Modified node) in
    if (btreeOrder - 1 <? length (Keys child'))%nat
    then splitChild node' childIndex
    else Done node'.

Definition Put (bt : BTree) (key : string) (value : iface) : outcome BTree :=
  match root bt with
  | None => Done (mkBTree (Some (mkNode true [key] [value] [] false)))
  | Some r => r' ← insert key value r; Done (mkBTree (Some r'))
  end.

Fixpoint search (key : string) (node : BTreeNode) {struct node} : outcome iface :=
  let pos := SearchStrings (Keys node) key in
  if (pos <? length (Keys node))%nat && bool_decide (Keys node !! pos = Some key) then
    index (Values node) pos
  else if IsLeaf node then Fail ErrKeyNotFound
  else
    r ← index (List.map (search key) (Children node)) pos;
    r.

Definition Get (bt : BTree) (key : string) : outcome iface :=
  match root bt with
  | None => Fail ErrKeyNotFound
  | Some r => search key r
  end.

(** The leaf loop of [rangeSearch]: [for i, key := range node.Keys]. *)
Fixpoint range_leaf (prefix : string) (i : nat) (keys : list string)
    (values : list iface) (results : list iface) : outcome (list iface) :=
  match keys with
  | [] => Done results
  | key :: keys' =>
      if HasPrefix key prefix then
        v ← index values i;
        range_leaf prefix (S i) keys' values (results ++ [v])
      else range_leaf prefix (S i) keys' values results
  end.

(** The loop over the keys of an internal node; [subs !! i] is the
    recursive call on [node.Children[i]]. *)
Fixpoint range_internal (prefix : string) (i : nat) (keys : list string)
    (subs : list (list iface -> outcome (list iface)))
    (results : list iface) : outcome (list iface) :=
  match keys with
  | [] => Done results
  | key :: keys' =>
      if String.leb prefix key then
        g ← index subs i;
        results' ← g results;
        range_internal prefix (S i) keys' subs results'
      else range_internal prefix (S i) keys' subs results
  end.

Fixpoint rangeSearch (prefix : string) (node : BTreeNode) {struct node}
  : list iface -> outcome (list iface) :=
  fun results =>
  if IsLeaf node then range_leaf prefix 0 (Keys node) (Values node) results
  else
    let subs := List.map (rangeSearch prefix) (Children node) in
    results' ← range_internal prefix 0 (Keys node) subs results;
    match last subs with
    | Some g => g results'
    | None => Done results'
    end.

Definition Range (bt : BTree) (prefix : string) : outcome (list iface) :=
  match root bt with
  | None => Done []
  | Some r => rangeSearch prefix r []
  end.

(** [copy(s[pos:], s[pos+1:]); s = s[:len(s)-1]]: the element at [pos]
    goes.  The slice expression [s[pos+1:]] panics when [pos + 1]
    exceeds the length. *)
Definition remove_at {A} (s : list A) (pos : nat) : outcome (list A) :=
  if (pos + 1 <=? length s)%nat then Done (take pos s ++ drop (pos + 1) s)
  else Panic.

(** [delete] as it runs on a leaf, which is how [deleteFromInternal]
    calls it.  The node is returned with the error: the source changes
    the node in place and returns the error only. *)
Definition delete_leaf (key : string) (node : BTreeNode)
  : outcome (BTreeNode * option error) :=
  let pos := SearchStrings (Keys node) key in
  if (pos <? length (Keys node))%nat && bool_decide (Keys node !! pos = Some key) then
    ks ← remove_at (Keys node) pos;
    vs ← remove_at (Values node) pos;
    Done (mkNode (IsLeaf node) ks vs (Children node) true, None)
  else Done (node, Some ErrKeyNotFound).

(** [for !pred.IsLeaf { pred = pred.Children[len(pred.Children)-1] }] *)
Fixpoint rightmost (node : BTreeNode) {struct node} : outcome BTreeNode :=
  if IsLeaf node then Done node
  else match last (List.map rightmost (Children node)) with
       | Some r => r
       | None => Panic
       end.

(** The tree after [f] has changed its rightmost leaf in place. *)
Fixpoint on_rightmost (f : BTreeNode -> outcome (BTreeNode * option error))
    (node : BTreeNode) {struct node} : outcome (BTreeNode * option error) :=
  if IsLeaf node then f node
  else match last (List.map (on_rightmost f) (Children node)) with
       | Some r =>
           '(child', err) ← r;
           Done (mkNode (IsLeaf node) (Keys node) (Values node)
                        (<[(length (Children node) - 1)%nat := child']> (Children node))
                        (Modified node), err)
       | None => Panic
       end.

(** [deleteFromInternal(node, pos)], called with [pos < len(node.Keys)]:
    the predecessor replaces the key, then is deleted from its leaf. *)
Definition deleteFromInternal (node : BTreeNode) (pos : nat)
  : outcome (BTreeNode * option error) :=
  child ← index (Children node) pos;
  pred ← rightmost child;
  predKey ← index (Keys pred) (length (Keys pred) - 1);
  predValue ← index (Values pred) (length (Values pred) - 1);
  vs ← store_at (Values node) pos predValue;
  '(child', err) ← on_rightmost (delete_leaf predKey) child;
  Done (mkNode (IsLeaf node) (<[pos := predKey]> (Keys node)) vs
               (<[pos := child']> (Children node)) true, err).

Fixpoint delete (key : string) (node : BTreeNode) {struct node}
  : outcome (BTreeNode * option error) :=
  let pos := SearchStrings (Keys node) key in
  if (pos <? length (Keys node))%nat && bool_decide (Keys node !! pos = Some key) then
    if IsLeaf node then
      ks ← remove_at (Keys node) pos;
      vs ← remove_at (Values node) pos;
      Done (mkNode (IsLeaf node) ks vs (Children node) true, None)
    else deleteFromInternal node pos
  else if IsLeaf node then Done (node, Some ErrKeyNotFound)
  else
    r ← index (List.map (delete key) (Children node)) pos;
    '(child', err) ← r;
    Done (mkNode (IsLeaf node) (Keys node) (Values node)
                 (<[pos := child']> (Children node)) (Modified node), err).

Definition Delete (bt : BTree) (key : string) : outcome (BTree * option error) :=
  match root bt with
  | None => Done (bt, Some ErrKeyNotFound)
  | Some r => '(r', err) ← delete key r; Done (mkBTree (Some r'), err)
  end.

End BTree.

(** ** Skip-list memtable

    The skip list is represented by its level-0 chain: [nodes] lists the
    nodes reachable from [header.forward[0]] in link order, and every
    node records [height = len(forward) - 1].  [x.forward[i]] is then the
    next node after [x] whose height is at least [i], which is what the
    splicing in [Put] and the unlinking in [Delete] maintain. *)

Module Memtable.

Definition maxLevel : nat := 32.

Record SkipListNode : Type := mkSkipListNode {
  key : string;
  value : iface;
  height : nat;
  ttl : option Time
}.

(** [mt.rand]: the outcomes of the successive tests
    [mt.rand.Float64() < probability], and how many were consumed. *)
Record Rand : Type := mkRand { coins : nat -> bool; drawn : nat }.

Definition flip (r : Rand) : bool * Rand :=
  (coins r (drawn r), mkRand (coins r) (S (drawn r))).

Record Memtable : Type := mkMemtable {
  nodes : list SkipListNode;
  level : nat;
  size : Z;
  maxSize : Z;
  count : Z;
  rand : Rand
}.

Definition NewMemtable (maxSize : Z) (r : Rand) : Memtable :=
  mkMemtable [] 0 0 maxSize 0 r.

(** [for level < maxLevel-1 && mt.rand.Float64() < probability { level++ }];
    [budget] is [maxLevel - 1 - level]. *)
Fixpoint randomLevel_loop (budget : nat) (r : Rand) (lvl : nat) : nat * Rand :=
  match budget with
  | O => (lvl, r)
  | S budget' =>
      let '(c, r') := flip r in
      if c then randomLevel_loop budget' r' (S lvl) else (lvl, r')
  end.

Definition randomLevel (r : Rand) : nat * Rand :=
  randomLevel_loop (maxLevel - 1) r 0.

Definition estimateValueSize (v : iface) : Z :=
  match v with
  | IVal (VString s) => len s
  | IVal (VBytes b) => Z.of_nat (length b)
  | IVal (VInt KInt _) | IVal (VInt KInt32 _) | IVal (VInt KInt64 _)
  | IVal (VFloat32 _) | IVal (VFloat64 _) => 8
  | IVal (VBool _) => 1
  | _ => 64
  end.

(** The inner loop at level [i], started at a node whose successors on
    level 0 are [l]:
    [for current.forward[i] != nil && current.forward[i].key < key].
    The result is the level-0 chain after the node the loop stops at;
    [start] is that chain for the node the loop began at. *)
Fixpoint advance (i : nat) (k : string) (start l : list SkipListNode)
  : list SkipListNode :=
  match l with
  | [] => start
  | n :: l' =>
      if (i <=? height n)%nat then
        if String.ltb (key n) k then advance i k l' l' else start
      else advance i k start l'
  end.

(** [for i := mt.level; i >= 0; i--]: levels [i], [i-1], ..., [0]. *)
Fixpoint descend (i : nat) (k : string) (rest : list SkipListNode)
  : list SkipListNode :=
  let rest' := advance i k rest rest in
  match i with
  | O => rest'
  | S j => descend j k rest'
  end.

(** The search shared by [Put], [Get] and [Delete]: the nodes before
    [current.forward[0]] and the chain starting at it. *)
Definition locate (mt : Memtable) (k : string)
  : list SkipListNode * list SkipListNode :=
  let rest := descend (level mt) k (nodes mt) in
  (take (length (nodes mt) - length rest) (nodes mt), rest).

Definition Put (mt : Memtable) (k : string) (v : iface) : Memtable :=
  match locate mt k with
  | (before, current :: after) =>
      if String.eqb (key current) k then
        mkMemtable
          (before ++ mkSkipListNode (key current) v (height current) (ttl current) :: after)
          (level mt) (size mt) (maxSize mt) (count mt) (rand mt)
      else
        let '(newLevel, r) := randomLevel (rand mt) in
        mkMemtable
          (before ++ mkSkipListNode k v newLevel None :: current :: after)
          (Nat.max (level mt) newLevel)
          (wrap64 (size mt + wrap64 (len k + estimateValueSize v)))
          (maxSize mt) (wrap64 (count mt + 1)) r
  | (before, []) =>
      let '(newLevel, r) := randomLevel (rand mt) in
      mkMemtable
        (before ++ [mkSkipListNode k v newLevel None])
        (Nat.max (level mt) newLevel)
        (wrap64 (size mt + wrap64 (len k + estimateValueSize v)))
        (maxSize mt) (wrap64 (count mt + 1)) r
  end.

(** [(value, true)] is [Some value], [(nil, false)] is [None]. *)
Definition Get (mt : Memtable) (now : Time) (k : string) : option iface :=
  match locate mt k with
  | (_, current :: _) =>
      if String.eqb (key current) k then
        match ttl current with
        | Some t => if (t <? now)%Z then None else Some (value current)
        | None => Some (value current)
        end
      else None
  | (_, []) => None
  end.

(** [for mt.level > 0 && mt.header.forward[mt.level] == nil { mt.level-- }] *)
Fixpoint lower_level (lvl : nat) (ns : list SkipListNode) : nat :=
  match lvl with
  | O => O
  | S l =>
      if existsb (fun n => (lvl <=? height n)%nat) ns then lvl
      else lower_level l ns
  end.

Definition Delete (mt : Memtable) (k : string) : Memtable * bool :=
  match locate mt k with
  | (before, current :: after) =>
      if String.eqb (key current) k then
        (mkMemtable
           (before ++ after)
           (lower_level (level mt) (before ++ after))
           (wrap64 (size mt - wrap64 (len k + estimateValueSize (value current))))
           (maxSize mt) (wrap64 (count mt - 1)) (rand mt),
         true)
      else (mt, false)
  | (_, []) => (mt, false)
  end.

(** [Range]: the visitor [fn] updates the variables it captured, of
    type [S], and says whether to go on. *)
Fixpoint range_loop {S} (now : Time) (prefix : string)
    (fn : string -> iface -> S -> S * bool) (l : list SkipListNode) (s : S) : S :=
  match l with
  | [] => s
  | current :: l' =>
      if HasPrefix (key current) prefix then
        if match ttl current with Some t => (now <? t)%Z | None => true end then
          let '(s', continue) := fn (key current) (value current) s in
          if continue then range_loop now prefix fn l' s' else s'
        else range_loop now prefix fn l' s
      else range_loop now prefix fn l' s
  end.

Definition Range {S} (mt : Memtable) (now : Time) (prefix : string)
    (fn : string -> iface -> S -> S * bool) (s : S) : S :=
  range_loop now prefix fn (nodes mt) s.

Definition Size (mt : Memtable) : Z := size mt.
Definition Count (mt : Memtable) : Z := count mt.
Definition IsEmpty (mt : Memtable) : bool := (count mt =? 0)%Z.

End Memtable.

(** ** Write-ahead log *)

Module WAL.

Inductive WALEntryType : Type := WALPut | WALDelete | WALTransaction.

Record WALEntry : Type := mkWALEntry {
  Type_ : WALEntryType;
  Key : string;
  Value_ : iface;
  Timestamp : Time;
  TxnID : string
}.

(** *** The [encoding/gob] stream

    A gob stream is a sequence of messages; a message either defines a
    type or carries a value.  An [Encoder] transmits the definition of a
    type before the first value of that type it encodes, and remembers
    what it has sent.  A [Decoder] records the definitions it receives
    and rejects one for a type it already has ("gob: duplicate type
    received"); it also rejects a value whose type it was never told
    about. *)

Inductive gobType : Type := TWALEntry | TDocument.

#[global] Instance gobType_eq_dec : EqDecision gobType.
Proof. solve_decision. Defined.

Inductive gobMsg : Type :=
  | MsgTypeDef (t : gobType)
  | MsgValue (e : WALEntry).

(** The types a [WALEntry] needs on the wire: its own and, through the
    interface field [Value], that of the registered [*Document]. *)
Definition types_of (e : WALEntry) : list gobType :=
  TWALEntry :: match Value_ e with IDoc _ => [TDocument] | IVal _ => [] end.

Record Encoder : Type := mkEncoder { sent : list gobType }.

Definition NewEncoder : Encoder := mkEncoder [].

Definition Encode (enc : Encoder) (e : WALEntry) : Encoder * list gobMsg :=
  let missing := List.filter (fun t => negb (bool_decide (t ∈ sent enc))) (types_of e) in
  (mkEncoder (sent enc ++ missing), List.map MsgTypeDef missing ++ [MsgValue e]).

Record Decoder : Type := mkDecoder { seen : list gobType; input : list gobMsg }.

Definition NewDecoder (file : list gobMsg) : Decoder := mkDecoder [] file.

(** [decoder.Decode(&entry)]: [None] is any error, [io.EOF] included. *)
Fixpoint Decode_from (seen0 : list gobType) (inp : list gobMsg)
  : option WALEntry * Decoder :=
  match inp with
  | [] => (None, mkDecoder seen0 [])
  | MsgTypeDef t :: rest =>
      if bool_decide (t ∈ seen0) then (None, mkDecoder seen0 rest)
      else Decode_from (t :: seen0) rest
  | MsgValue e :: rest =>
      if forallb (fun t => bool_decide (t ∈ seen0)) (types_of e)
      then (Some e, mkDecoder seen0 rest)
      else (None, mkDecoder seen0 rest)
  end.

Definition Decode (dec : Decoder) : option WALEntry * Decoder :=
  Decode_from (seen dec) (input dec).

(** The file as the sequence of gob messages flushed and synced to it. *)
Record WAL : Type := mkWAL { file : list gobMsg }.

(** [NewWAL] opens the file in append mode: [contents] is what it holds. *)
Definition NewWAL (contents : list gobMsg) : WAL := mkWAL contents.

(** [disk_ok] says whether encode, flush and sync all succeed. *)
Definition WriteEntry (w : WAL) (disk_ok : bool) (entry : WALEntry)
  : WAL * option error :=
  let encoder := NewEncoder in
  let '(_, msgs) := Encode encoder entry in
  if disk_ok then (mkWAL (file w ++ msgs), None)
  else (w, Some (ErrWAL "failed to write")).

(** [for { if err := decoder.Decode(&entry); err != nil { break }; ... }].
    Every successful [Decode] consumes a message, so [fuel] beyond the
    number of messages is never used up. *)
Fixpoint ReadEntries_loop (fuel : nat) (dec : Decoder) (entries : list WALEntry)
  : list WALEntry :=
  match fuel with
  | O => entries
  | S fuel' =>
      match Decode dec with
      | (None, _) => entries
      | (Some entry, dec') => ReadEntries_loop fuel' dec' (entries ++ [entry])
      end
  end.

Definition ReadEntries (w : WAL) : list WALEntry :=
  ReadEntries_loop (S (length (file w))) (NewDecoder (file w)) [].

End WAL.

(** ** Secondary index *)

Module Index.

Record Index : Type := mkIndex {
  field : string;
  entries : gmap string (list string)
}.

Definition NewIndex (field : string) : Index := mkIndex field ∅.

Definition Put (idx : Index) (value docID : string) : Index :=
  let entries1 :=
    match entries idx !! value with
    | Some _ => entries idx
    | None => <[value := []]> (entries idx)
    end in
  let ids := default [] (entries1 !! value) in
  if bool_decide (docID ∈ ids) then mkIndex (field idx) entries1
  else mkIndex (field idx) (<[value := ids ++ [docID]]> entries1).

Definition Get (idx : Index) (value : string) : list string :=
  match entries idx !! value with
  | Some docIDs => docIDs
  | None => []
  end.

(** The inner loop of [Delete]: drop the first occurrence and [break]. *)
Fixpoint remove_first (docID : string) (docIDs : list string) : list string :=
  match docIDs with
  | [] => []
  | id :: rest => if String.eqb id docID then rest else id :: remove_first docID rest
  end.

(** Every bucket is treated on its own, so the iteration order of the
    map does not matter. *)
Definition Delete (idx : Index) (docID : string) : Index :=
  mkIndex (field idx)
    (omap (fun docIDs =>
             match remove_first docID docIDs with
             | [] => None
             | ids => Some ids
             end) (entries idx)).

Definition Size (idx : Index) : nat := size (entries idx).

End Index.

(** ** Filter comparison *)

(** [float64(z)] for an integer [z]: rounding to nearest, ties to even. *)
Definition float64_of_Z (z : Z) : float :=
  SF2Prim (binary_normalize prec emax z 0 false).

(** [a == b] on two interface values: false when the dynamic types
    differ, a run-time panic when they agree on a type that is not
    comparable. *)
Definition iface_eq (a b : Value) : outcome bool :=
  match a, b with
  | VNil, VNil => Done true
  | VBool x, VBool y => Done (Bool.eqb x y)
  | VInt k x, VInt k' y =>
      Done (bool_decide (k = k') && (x =? y)%Z)
  | VFloat32 x, VFloat32 y => Done (PrimFloat.eqb x y)
  | VFloat64 x, VFloat64 y => Done (PrimFloat.eqb x y)
  | VString x, VString y => Done (String.eqb x y)
  | VBytes _, VBytes _ => Panic
  | VSlice _, VSlice _ => Panic
  | VMap _, VMap _ => Panic
  | _, _ => Done false
  end.

Definition toFloat64 (v : Value) : float * bool :=
  match v with
  | VFloat64 val => (val, true)
  | VFloat32 val => (val, true)
  | VInt _ val => (float64_of_Z val, true)
  | _ => (0%float, false)
  end.

Definition valuesEqual (a b : Value) : outcome bool :=
  direct ← iface_eq a b;
  if direct : bool then Done true
  else
    let '(aFloat, aIsNum) := toFloat64 a in
    let '(bFloat, bIsNum) := toFloat64 b in
    if aIsNum && bIsNum then Done (PrimFloat.eqb aFloat bFloat)
    else
      match a, b with
      | VString aStr, VString bStr => Done (String.eqb aStr bStr)
      | VBool aBool, VBool bBool => Done (Bool.eqb aBool bBool)
      | _, _ => Done false
      end.

(** ** Engine coordinator *)

Module Engine.

Record Engine : Type := mkEngine {
  MemtableSize : Z;                    (* config.MemtableSize *)
  memtable : Memtable.Memtable;
  wal : WAL.WAL;
  btree : BTree.BTree;
  indexes : gmap string Index.Index;
  compacting : bool;
  flushes : nat   (* [go e.flushMemtable()] goroutines started and not yet run *)
}.

(** [fmt.Sprintf("%s:%s", collection, id)] *)
Definition doc_key (collection id : string) : string :=
  collection +:+ ":" +:+ id.

(** [len(indexKey) > len(collection) && indexKey[:len(collection)] == collection] *)
Definition index_of_collection (indexKey collection : string) : bool :=
  (String.length collection <? String.length indexKey)%nat
  && String.eqb (slice_to indexKey (String.length collection)) collection.

Section Formatter.

(** [fmt.Sprintf("%v", value)] *)
Variable Sprintf_v : Value -> string.

Definition updateIndexes (ixs : gmap string Index.Index)
    (collection id : string) (doc : Document) : gmap string Index.Index :=
  map_imap (fun indexKey index =>
    Some (if index_of_collection indexKey collection then
            let field := slice_from indexKey (String.length collection + 1) in
            match Data doc !! field with
            | Some value => Index.Put index (Sprintf_v value) id
            | None => index
            end
          else index)) ixs.

Definition removeFromIndexes (ixs : gmap string Index.Index)
    (collection id : string) : gmap string Index.Index :=
  map_imap (fun indexKey index =>
    Some (if index_of_collection indexKey collection
          then Index.Delete index id else index)) ixs.

(** [for key, value := range filter]; the pairs are taken in the order
    of [map_to_list]. *)
Fixpoint matches_loop (data : gmap string Value) (l : list (string * Value))
  : outcome bool :=
  match l with
  | [] => Done true
  | (key, value) :: l' =>
      match data !! key with
      | None => Done false
      | Some docValue =>
          eq ← valuesEqual docValue value;
          if eq : bool then matches_loop data l' else Done false
      end
  end.

Definition matchesFilter (doc : Document) (filter : gmap string Value)
  : outcome bool :=
  matches_loop (Data doc) (map_to_list filter).

Definition Put (e : Engine) (now : Time) (disk_ok : bool)
    (collection id : string) (data : gmap string Value) : Engine * option error :=
  let key := doc_key collection id in
  let doc :=
    match Memtable.Get (memtable e) now key with
    | Some (IDoc existingDoc) =>
        mkDocument id data (CreatedAt existingDoc) now
                   (wrap64 (Version existingDoc + 1))
    | _ => mkDocument id data now now 1
    end in
  match WAL.WriteEntry (wal e) disk_ok
          (WAL.mkWALEntry WAL.WALPut key (IDoc doc) now "") with
  | (_, Some _) => (e, Some (ErrWAL "failed to write to WAL"))
  | (w, None) =>
      let mt := Memtable.Put (memtable e) key (IDoc doc) in
      let ixs := updateIndexes (indexes e) collection id doc in
      let spawned :=
        if (MemtableSize e <=? Memtable.Size mt)%Z then S (flushes e) else flushes e in
      (mkEngine (MemtableSize e) mt w (btree e) ixs (compacting e) spawned, None)
  end.

Definition Get (e : Engine) (now : Time) (collection id : string)
  : outcome Document :=
  let key := doc_key collection id in
  match Memtable.Get (memtable e) now key with
  | Some (IDoc doc) => Done doc
  | _ =>
      value ← BTree.Get (btree e) key;
      match value with
      | IDoc doc => Done doc
      | IVal _ => Fail ErrDocumentNotFound
      end
  end.

Definition Delete (e : Engine) (now : Time) (disk_ok : bool)
    (collection id : string) : Engine * option error :=
  let key := doc_key collection id in
  match WAL.WriteEntry (wal e) disk_ok
          (WAL.mkWALEntry WAL.WALDelete key inil now "") with
  | (_, Some _) => (e, Some (ErrWAL "failed to write to WAL"))
  | (w, None) =>
      let '(mt, _) := Memtable.Delete (memtable e) key in
      let ixs := removeFromIndexes (indexes e) collection id in
      (mkEngine (MemtableSize e) mt w (btree e) ixs (compacting e) (flushes e), None)
  end.

(** The body shared by the two loops of [Query]:
    [if value holds a Document doc { if e.matchesFilter(doc, filter)
    { results = append(results, doc) } }]. *)
Definition collect (filter : gmap string Value) (value : iface)
    (results : list Document) : outcome (list Document) :=
  match value with
  | IDoc doc =>
      m ← matchesFilter doc filter;
      Done (if m : bool then results ++ [doc] else results)
  | IVal _ => Done results
  end.

Fixpoint collect_all (filter : gmap string Value) (values : list iface)
    (results : list Document) : outcome (list Document) :=
  match values with
  | [] => Done results
  | value :: values' =>
      results' ← collect filter value results;
      collect_all filter values' results'
  end.

Definition Query (e : Engine) (now : Time) (collection : string)
    (filter : gmap string Value) : outcome (list Document) :=
  let prefix := collection +:+ ":" in
  results ← Memtable.Range (memtable e) now prefix
              (fun _ value (acc : outcome (list Document)) =>
                 (results ← acc; collect filter value results, true))
              (Done []);
  diskResults ← BTree.Range (btree e) prefix;
  collect_all filter diskResults results.

(** [if fieldValue, exists := doc.Data[field]; exists
     { index.Put(fmt.Sprintf("%v", fieldValue), doc.ID) }] *)
Definition index_doc (field : string) (value : iface) (index : Index.Index)
  : Index.Index :=
  match value with
  | IDoc doc =>
      match Data doc !! field with
      | Some fieldValue => Index.Put index (Sprintf_v fieldValue) (ID doc)
      | None => index
      end
  | IVal _ => index
  end.

Definition buildIndex (e : Engine) (now : Time) (collection field : string)
    (index : Index.Index) : outcome Index.Index :=
  let prefix := collection +:+ ":" in
  let index1 :=
    Memtable.Range (memtable e) now prefix
      (fun _ value ix => (index_doc field value ix, true)) index in
  diskResults ← BTree.Range (btree e) prefix;
  Done (foldl (fun ix value => index_doc field value ix) index1 diskResults).

(** [btree.Range] never returns a non-nil error, so [buildIndex] returns
    nil whenever it returns. *)
Definition CreateIndex (e : Engine) (now : Time) (collection field : string)
  : outcome Engine :=
  let indexKey := collection +:+ "." +:+ field in
  match indexes e !! indexKey with
  | Some _ => Fail ErrIndexExists
  | None =>
      index ← buildIndex e now collection field (Index.NewIndex field);
      Done (mkEngine (MemtableSize e) (memtable e) (wal e) (btree e)
                     (<[indexKey := index]> (indexes e)) (compacting e) (flushes e))
  end.

(** [flushMemtable]; [r] is the generator of the new memtable.  The
    error [btree.Put] returns is dropped by the visitor. *)
Definition flushMemtable (e : Engine) (now : Time) (r : Memtable.Rand)
  : outcome Engine :=
  if Memtable.IsEmpty (memtable e) then Done e
  else
    let oldMemtable := memtable e in
    bt ← Memtable.Range oldMemtable now ""
           (fun key value (acc : outcome BTree.BTree) =>
              (bt ← acc;
               match BTree.Put bt key value with
               | Fail _ => Done bt
               | other => other
               end, true))
           (Done (btree e));
    Done (mkEngine (MemtableSize e) (Memtable.NewMemtable (MemtableSize e) r)
                   (wal e) bt (indexes e) (compacting e) (flushes e)).

(** One of the goroutines started by [Put] gets to run. *)
Definition run_flush (e : Engine) (now : Time) (r : Memtable.Rand)
  : outcome Engine :=
  match flushes e with
  | O => Done e
  | S n =>
      flushMemtable
        (mkEngine (MemtableSize e) (memtable e) (wal e) (btree e)
                  (indexes e) (compacting e) n) now r
  end.

Definition replay (mt : Memtable.Memtable) (entry : WAL.WALEntry)
  : Memtable.Memtable :=
  match WAL.Type_ entry with
  | WAL.WALPut =>
      match WAL.Value_ entry with
      | IDoc doc => Memtable.Put mt (WAL.Key entry) (IDoc doc)
      | IVal _ => mt
      end
  | WAL.WALDelete => fst (Memtable.Delete mt (WAL.Key entry))
  | WAL.WALTransaction => mt
  end.

Definition recover (e : Engine) : Engine :=
  let entries := WAL.ReadEntries (wal e) in
  mkEngine (MemtableSize e) (foldl replay (memtable e) entries)
           (wal e) (btree e) (indexes e) (compacting e) (flushes e).

(** [NewEngine]: [walFile] and [bt] are what [wal.log] and [data.db]
    hold when the engine starts. *)
Definition NewEngine (cfgMemtableSize : Z) (walFile : list WAL.gobMsg)
    (bt : BTree.BTree) (r : Memtable.Rand) : Engine :=
  recover (mkEngine cfgMemtableSize (Memtable.NewMemtable cfgMemtableSize r)
                    (WAL.NewWAL walFile) bt ∅ false 0).

(** *** Operation sequences *)

Inductive Op : Type :=
  | OpPut (now : Time) (disk_ok : bool) (collection id : string)
          (data : gmap string Value)
  | OpDelete (now : Time) (disk_ok : bool) (collection id : string)
  | OpCreateIndex (now : Time) (collection field : string)
  | OpFlush (now : Time) (r : Memtable.Rand).

(** The engine after an operation; an operation that returns an error
    leaves what it had already changed. *)
Definition exec (e : Engine) (op : Op) : outcome Engine :=
  match op with
  | OpPut now ok c i data => Done (fst (Put e now ok c i data))
  | OpDelete now ok c i => Done (fst (Delete e now ok c i))
  | OpCreateIndex now c f =>
      match CreateIndex e now c f with
      | Fail _ => Done e
      | other => other
      end
  | OpFlush now r => run_flush e now r
  end.

Fixpoint run (e : Engine) (ops : list Op) : outcome Engine :=
  match ops with
  | [] => Done e
  | op :: ops' => e' ← exec e op; run e' ops'
  end.

End Formatter.

End Engine.

(** ** Vocabulary of the statements *)

(** *** B-tree *)


(** The tree a sequence of [Put] calls builds. *)
Definition build (init : BTree.BTree) (puts : list (string * iface))
  : outcome BTree.BTree :=
  foldl (fun acc kv => bt ← acc; BTree.Put bt kv.1 kv.2) (Done init) puts.

Definition leaf_ok (r : BTree.BTreeNode) : Prop :=
  BTree.IsLeaf r = true /\ length (BTree.Keys r) = length (BTree.Values r).

Definition tree_ok (bt : BTree.BTree) : Prop :=
  match BTree.root bt with Some r => leaf_ok r | None => True end.

(** The values of the keys that start with [p], in key order. *)
Definition prefixed (p : string) (keys : list string) (values : list iface)
  : list iface :=
  List.map snd (List.filter (fun kv => HasPrefix (fst kv) p) (zip keys values)).


Definition keys_sorted (ks : list string) : Prop :=
  StronglySorted (fun a b => String.ltb a b = true) ks.

(** What [Put] builds: one leaf, keys strictly ascending. *)
Definition leaf_sorted (r : BTree.BTreeNode) : Prop :=
  leaf_ok r /\ keys_sorted (BTree.Keys r).

Definition tree_sorted (bt : BTree.BTree) : Prop :=
  match BTree.root bt with Some r => leaf_sorted r | None => True end.

Definition find_kv (k : string) (l : list (string * iface)) : option (string * iface) :=
  List.find (fun kv => String.eqb (fst kv) k) l.

(** A leaf, and a tree made of one leaf, read as a finite map. *)
Definition leaf_lookup (k : string) (r : BTree.BTreeNode) : option iface :=
  snd <$> find_kv k (zip (BTree.Keys r) (BTree.Values r)).

Definition tree_lookup (k : string) (bt : BTree.BTree) : option iface :=
  r ← BTree.root bt; leaf_lookup k r.

(** An internal node over the single leaf "a", "m", "z", and the tree
    [splitChild] makes of it. *)
Definition unsplit_node : BTree.BTreeNode :=
  BTree.mkNode false [] []
    [BTree.mkNode true ["a"; "m"; "z"]
       [IVal (VString "A"); IVal (VString "M"); IVal (VString "Z")] [] false]
    false.

Definition split_tree : outcome BTree.BTree :=
  r ← BTree.splitChild unsplit_node 0; Done (BTree.mkBTree (Some r)).

(** *** Write-ahead log *)

(** What one [WriteEntry] appends: a new encoder sends every type the
    entry needs, then the entry. *)
Definition frame (e : WAL.WALEntry) : list WAL.gobMsg :=
  List.map WAL.MsgTypeDef (WAL.types_of e) ++ [WAL.MsgValue e].

(** *** Filter comparison, as the specification words it *)

Definition is_numeric (v : Value) : bool :=
  match v with
  | VInt _ _ | VFloat32 _ | VFloat64 _ => true
  | _ => false
  end.

(** The value widened to double precision. *)
Definition widen (v : Value) : float :=
  match v with
  | VInt _ z => float64_of_Z z
  | VFloat32 f | VFloat64 f => f
  | _ => 0%float
  end.

(** Same dynamic type and same value. *)
Definition directly_equal (a b : Value) : bool :=
  match a, b with
  | VNil, VNil => true
  | VBool x, VBool y => Bool.eqb x y
  | VInt k x, VInt k' y => bool_decide (k = k') && (x =? y)%Z
  | VFloat32 x, VFloat32 y | VFloat64 x, VFloat64 y => PrimFloat.eqb x y
  | VString x, VString y => String.eqb x y
  | _, _ => false
  end.

(** "Try direct equality first.  If both sides are numeric, widen both
    to a double-precision floating point and compare.  If both sides are
    strings, compare by bytes.  If both sides are booleans, compare.
    Otherwise return false." *)
Definition valuesEqual_spec (a b : Value) : bool :=
  directly_equal a b
  || (if is_numeric a && is_numeric b then PrimFloat.eqb (widen a) (widen b)
      else match a, b with
           | VString x, VString y => String.eqb x y
           | VBool x, VBool y => Bool.eqb x y
           | _, _ => false
           end).

(** Two values of one dynamic type that Go cannot compare. *)
Definition uncomparable_pair (a b : Value) : bool :=
  match a, b with
  | VBytes _, VBytes _ | VSlice _, VSlice _ | VMap _, VMap _ => true
  | _, _ => false
  end.

(** *** Memtable *)

Definition lt_key (a b : Memtable.SkipListNode) : Prop :=
  String.ltb (Memtable.key a) (Memtable.key b) = true.

Definition sorted (l : list Memtable.SkipListNode) : Prop := StronglySorted lt_key l.

Definition below (k : string) (n : Memtable.SkipListNode) : Prop :=
  String.ltb (Memtable.key n) k = true.

Definition above (k : string) (n : Memtable.SkipListNode) : Prop :=
  String.ltb k (Memtable.key n) = true.

(** What [Put] builds: keys strictly ascending, no expiry set. *)
Definition mt_wf (mt : Memtable.Memtable) : Prop :=
  sorted (Memtable.nodes mt)
  /\ Forall (fun n => Memtable.ttl n = None) (Memtable.nodes mt).

Definition find_node (k : string) (l : list Memtable.SkipListNode)
  : option Memtable.SkipListNode :=
  List.find (fun n => String.eqb (Memtable.key n) k) l.

(** The memtable read as a finite map. *)
Definition mt_lookup (mt : Memtable.Memtable) (k : string) : option iface :=
  Memtable.value <$> find_node k (Memtable.nodes mt).

Definition stops_at (k : string) (rest : list Memtable.SkipListNode) : Prop :=
  match rest with
  | [] => True
  | c :: _ => String.ltb (Memtable.key c) k = false
  end.

(** The two ways the search for [k] can end in a sorted chain [l]. *)
Inductive located (k : string) (l : list Memtable.SkipListNode)
  : list Memtable.SkipListNode -> list Memtable.SkipListNode -> Prop :=
  | located_hit before c after :
      l = before ++ c :: after -> Memtable.key c = k ->
      Forall (below k) before -> Forall (above k) after ->
      located k l before (c :: after)
  | located_miss before rest :
      l = before ++ rest ->
      Forall (below k) before -> Forall (above k) rest ->
      located k l before rest.

(** The values [Memtable.Range] visits under a prefix when no entry has
    an expiry. *)
Definition scanned (mt : Memtable.Memtable) (p : string) : list iface :=
  List.map Memtable.value
    (List.filter (fun n => HasPrefix (Memtable.key n) p) (Memtable.nodes mt)).

(** *** Engine *)

(** The engine stores nothing but documents in its memtable. *)
Definition docs_only (mt : Memtable.Memtable) : Prop :=
  Forall (fun n => exists d, Memtable.value n = IDoc d) (Memtable.nodes mt).

Definition engine_wf (e : Engine.Engine) : Prop :=
  mt_wf (Engine.memtable e) /\ docs_only (Engine.memtable e)
  /\ tree_sorted (Engine.btree e).

(** The merged view [Get] reads: the memtable first, then the B-tree. *)
Definition stored (e : Engine.Engine) (k : string) : option iface :=
  match mt_lookup (Engine.memtable e) k with
  | Some v => Some v
  | None => tree_lookup k (Engine.btree e)
  end.

(** The documents among [values] that satisfy [filter], in order. *)
Definition matching (filter : gmap string Value) (values : list iface)
  : list Document :=
  omap (fun value =>
          match value with
          | IDoc doc =>
              match Engine.matchesFilter doc filter with
              | Done true => Some doc
              | _ => None
              end
          | IVal _ => None
          end) values.

(** ** Scenarios *)

(** [%v] on nil, booleans, integers and strings, the kinds the scenarios
    use; the rendering of floats and composites is not modelled and they
    are given the empty string. *)
Definition plain_v (v : Value) : string :=
  match v with
  | VNil => "<nil>"
  | VBool true => "true"
  | VBool false => "false"
  | VInt _ z => NilZero.string_of_int (Z.to_int z)
  | VString s => s
  | _ => ""
  end.

(** A generator whose every test [Float64() < probability] fails. *)
Definition no_promotion : Memtable.Rand := Memtable.mkRand (fun _ => false) 0.

(** A fresh engine on an empty data directory. *)
Definition fresh (threshold : Z) : Engine.Engine :=
  Engine.NewEngine threshold [] BTree.NewBTree no_promotion.

Definition alice : gmap string Value :=
  {[ "name" := VString "Alice"; "email" := VString "a@example.com" ]}.

Definition alice31 : gmap string Value :=
  {[ "name" := VString "Alice"; "email" := VString "alice@example.com" ]}.

Definition sample_key (n : nat) : string :=
  "doc:" +:+ NilZero.string_of_int (Nat.to_int n).

Definition sample_puts (n : nat) : list (string * iface) :=
  List.map (fun i => (sample_key i, inil)) (seq 0 n).

Definition sample_entry (k : string) (version : Z) : WAL.WALEntry :=
  WAL.mkWALEntry WAL.WALPut k (IDoc (mkDocument k ∅ 0 0 version)) 0 "".

Definition write_all (w : WAL.WAL) (es : list WAL.WALEntry) : WAL.WAL :=
  foldl (fun w e => fst (WAL.WriteEntry w true e)) w es.

(** A memtable holding the keys "a" and "c". *)
Definition sample_mt : Memtable.Memtable :=
  Memtable.Put
    (Memtable.Put (Memtable.NewMemtable 1024 no_promotion) "a" inil) "c" inil.


Definition put_flush_delete : list Engine.Op :=
  [Engine.OpPut 1 true "users" "u1" alice;
   Engine.OpFlush 2 no_promotion;
   Engine.OpDelete 4 true "users" "u1"].

(** The state a run ends in ([e] itself if it panics). *)
Definition state_after (e : Engine.Engine) (ops : list Engine.Op) : Engine.Engine :=
  match Engine.run plain_v e ops with
  | Done e' => e'
  | _ => e
  end.

Definition alice_v1 : Document := mkDocument "u1" alice 1 1 1.
Definition alice_rewritten : Document := mkDocument "u1" alice31 4 4 1.

Definition address : Value := VMap [("city", VString "Paris")].

(** ** Histories and finite-map views *)

(** *** Memtable *)

Inductive MOp : Type :=
  | MPut (k : string) (v : iface)
  | MDelete (k : string).

Definition mstep (mt : Memtable.Memtable) (op : MOp) : Memtable.Memtable :=
  match op with
  | MPut k v => Memtable.Put mt k v
  | MDelete k => (Memtable.Delete mt k).1
  end.

(** The memtable a sequence of [Put] and [Delete] calls leaves. *)
Definition mrun (mt : Memtable.Memtable) (ops : list MOp) : Memtable.Memtable :=
  foldl mstep mt ops.

(** The same calls on a finite map. *)
Definition mmodel (m : gmap string iface) (op : MOp) : gmap string iface :=
  match op with
  | MPut k v => <[k := v]> m
  | MDelete k => delete k m
  end.

Definition node_kv (n : Memtable.SkipListNode) : string * iface :=
  (Memtable.key n, Memtable.value n).

Definition mt_map (mt : Memtable.Memtable) : gmap string iface :=
  list_to_map (node_kv <$> Memtable.nodes mt).

Definition max_height (l : list Memtable.SkipListNode) : nat :=
  foldr (fun n h => Nat.max (Memtable.height n) h) 0%nat l.

(** The visitor that records what it is shown and never stops. *)
Definition record_all (k : string) (v : iface) (acc : list (string * iface))
  : list (string * iface) * bool :=
  (acc ++ [(k, v)], true).

Definition ascending (l : list (string * iface)) : Prop :=
  StronglySorted (fun a b => String.ltb (fst a) (fst b) = true) l.

(** [Count] follows the number of nodes, as an [int64]. *)
Definition count_ok (mt : Memtable.Memtable) : Prop :=
  Memtable.count mt = wrap64 (Z.of_nat (length (Memtable.nodes mt))).

(** [level] is the greatest height in the chain and fits the header. *)
Definition level_ok (mt : Memtable.Memtable) : Prop :=
  Memtable.level mt = max_height (Memtable.nodes mt)
  /\ (Memtable.level mt < Memtable.maxLevel)%nat.

(** *** B-tree *)

Inductive TOp : Type :=
  | TPut (k : string) (v : iface)
  | TDelete (k : string).

(** One call; the error [Delete] may return does not stop a history. *)
Definition tstep (bt : BTree.BTree) (op : TOp) : outcome BTree.BTree :=
  match op with
  | TPut k v => BTree.Put bt k v
  | TDelete k => '(bt', _) ← BTree.Delete bt k; Done bt'
  end.

Fixpoint trun (bt : BTree.BTree) (ops : list TOp) : outcome BTree.BTree :=
  match ops with
  | [] => Done bt
  | op :: ops' => bt' ← tstep bt op; trun bt' ops'
  end.

Definition tmodel (m : gmap string iface) (op : TOp) : gmap string iface :=
  match op with
  | TPut k v => <[k := v]> m
  | TDelete k => delete k m
  end.

(** The root is a leaf with no child, its keys strictly ascending, and
    it holds exactly the map [m]. *)
Definition holds_map (bt : BTree.BTree) (m : gmap string iface) : Prop :=
  exists r,
    BTree.root bt = Some r /\ leaf_sorted r /\ BTree.Children r = []
    /\ forall k, leaf_lookup k r = m !! k.

(** *** Secondary index *)

Inductive IOp : Type :=
  | IPut (value docID : string)
  | IDelete (docID : string).

Definition istep (ix : Index.Index) (op : IOp) : Index.Index :=
  match op with
  | IPut value docID => Index.Put ix value docID
  | IDelete docID => Index.Delete ix docID
  end.

Definition irun (ix : Index.Index) (ops : list IOp) : Index.Index :=
  foldl istep ix ops.

(** The same calls on a set of (value, document id) pairs. *)
Definition imodel (s : gset (string * string)) (op : IOp) : gset (string * string) :=
  match op with
  | IPut value docID => {[ (value, docID) ]} ∪ s
  | IDelete docID => filter (fun p => p.2 <> docID) s
  end.

(** No bucket holds an id twice, and no bucket is empty. *)
Definition index_ok (ix : Index.Index) : Prop :=
  forall value ids, Index.entries ix !! value = Some ids -> NoDup ids /\ ids <> [].

(** The index pairs [value] with [docID]. *)
Definition pairs (ix : Index.Index) (value docID : string) : Prop :=
  docID ∈ Index.Get ix value.

Definition indexes_ok (e : Engine.Engine) : Prop :=
  forall indexKey ix, Engine.indexes e !! indexKey = Some ix -> index_ok ix.

(** *** Engine histories *)

(** The engine started on a data directory whose [data.db] is empty and
    whose [wal.log] holds [walFile]. *)
Definition boot (threshold : Z) (walFile : list WAL.gobMsg) (r : Memtable.Rand)
  : Engine.Engine :=
  Engine.NewEngine threshold walFile BTree.NewBTree r.

(** The B-tree holds nothing but documents. *)
Definition tree_docs (bt : BTree.BTree) : Prop :=
  forall k v, tree_lookup k bt = Some v -> exists d, v = IDoc d.

Definition engine_inv (e : Engine.Engine) : Prop :=
  engine_wf e /\ tree_docs (Engine.btree e) /\ indexes_ok e.



(** The data the last successful [Put] under the key [k] wrote. *)
Definition written (k : string) (m : option (gmap string Value)) (op : Engine.Op)
  : option (gmap string Value) :=
  match op with
  | Engine.OpPut _ true c i data => if decide (Engine.doc_key c i = k) then Some data else m
  | _ => m
  end.

Definition is_delete (op : Engine.Op) : bool :=
  match op with Engine.OpDelete _ _ _ _ => true | _ => false end.

(** A value of a type Go can compare. *)
Definition scalar (v : Value) : bool :=
  match v with
  | VBytes _ | VSlice _ | VMap _ => false
  | _ => true
  end.

(** The documents the engine holds under the keys that start with [p]. *)
Definition holds_under (e : Engine.Engine) (p : string) (d : Document) : Prop :=
  exists k, HasPrefix k p = true
    /\ (mt_lookup (Engine.memtable e) k = Some (IDoc d)
        \/ tree_lookup k (Engine.btree e) = Some (IDoc d)).


(** * Properties

    ** Byte order on strings *)

Section StringOrder.

Lemma ascii_compare_lt_trans a b c :
  Ascii.compare a b = Lt -> Ascii.compare b c = Lt -> Ascii.compare a c = Lt.
Proof.
  unfold Ascii.compare. rewrite !N.compare_lt_iff. lia.
Qed.

Lemma ascii_compare_refl a : Ascii.compare a a = Eq.
Proof. unfold Ascii.compare. apply N.compare_refl. Qed.

Lemma string_compare_refl s : String.compare s s = Eq.
Proof. induction s as [|a s IH]; simpl; [done|]. by rewrite ascii_compare_refl. Qed.

Lemma string_compare_lt_trans s1 : forall s2 s3,
  String.compare s1 s2 = Lt -> String.compare s2 s3 = Lt -> String.compare s1 s3 = Lt.
Proof.
  induction s1 as [|a s1 IH]; intros [|b s2] [|c s3]; simpl; try done.
  destruct (Ascii.compare a b) eqn:Eab; try done.
  - apply Ascii.compare_eq_iff in Eab as ->.
    destruct (Ascii.compare b c) eqn:Ebc; try done. apply IH.
  - intros _. destruct (Ascii.compare b c) eqn:Ebc; try done.
    + apply Ascii.compare_eq_iff in Ebc as <-. by rewrite Eab.
    + by rewrite (ascii_compare_lt_trans a b c).
Qed.

Lemma ltb_lt s1 s2 : String.ltb s1 s2 = true <-> String.compare s1 s2 = Lt.
Proof. unfold String.ltb. destruct (String.compare s1 s2); split; done. Qed.

Lemma ltb_irrefl s : String.ltb s s = false.
Proof. unfold String.ltb. by rewrite string_compare_refl. Qed.

Lemma ltb_trans s1 s2 s3 :
  String.ltb s1 s2 = true -> String.ltb s2 s3 = true -> String.ltb s1 s3 = true.
Proof. rewrite !ltb_lt. apply string_compare_lt_trans. Qed.

Lemma ltb_total s1 s2 :
  String.ltb s1 s2 = false -> s1 <> s2 -> String.ltb s2 s1 = true.
Proof.
  unfold String.ltb. intros H Hne.
  pose proof (String.compare_antisym s2 s1) as Ha.
  destruct (String.compare s1 s2) eqn:E; try done.
  - apply String.compare_eq_iff in E. congruence.
  - destruct (String.compare s2 s1); simpl in Ha; done.
Qed.

Lemma leb_ltb s1 s2 : String.leb s1 s2 = negb (String.ltb s2 s1).
Proof.
  unfold String.leb, String.ltb.
  pose proof (String.compare_antisym s2 s1) as Ha.
  destruct (String.compare s1 s2), (String.compare s2 s1); simpl in Ha; done.
Qed.

Lemma eqb_key_eq s1 s2 : String.eqb s1 s2 = true <-> s1 = s2.
Proof. apply String.eqb_eq. Qed.

End StringOrder.

(** ** Binary search and the B-tree *)

Section BTreeFacts.
Import BTree.

Lemma sort_Search_loop_bounds fuel f i j :
  (i <= j)%nat ->
  (i <= sort_Search_loop fuel f i j <= j)%nat.
Proof.
  revert i j. induction fuel as [|fuel IH]; intros i j Hij; cbn [sort_Search_loop]; [lia|].
  destruct (i <? j)%nat eqn:E; [|lia].
  apply Nat.ltb_lt in E.
  assert (Hh : (i <= (i + j) / 2 < j)%nat).
  { split.
    - apply Nat.div_le_lower_bound; lia.
    - apply Nat.Div0.div_lt_upper_bound; lia. }
  set (h := ((i + j) / 2)%nat) in *.
  destruct (negb (f h)).
  - assert (H1 : (h + 1 <= j)%nat) by lia.
    pose proof (IH _ _ H1). lia.
  - assert (H1 : (i <= h)%nat) by lia.
    pose proof (IH _ _ H1). lia.
Qed.

Lemma SearchStrings_le a x : (SearchStrings a x <= length a)%nat.
Proof.
  unfold SearchStrings, sort_Search.
  pose proof (sort_Search_loop_bounds (length a)
    (fun i => match a !! i with Some s => String.leb x s | None => true end) 0 (length a)).
  lia.
Qed.

Lemma insertIntoLeaf_ok node k v :
  leaf_ok node ->
  exists node', insertIntoLeaf node k v = Done node' /\ leaf_ok node'.
Proof.
  intros [Hleaf Hlen]. unfold insertIntoLeaf.
  pose proof (SearchStrings_le (Keys node) k) as Hpos.
  set (pos := SearchStrings (Keys node) k) in *.
  destruct ((pos <? length (Keys node))%nat && bool_decide (Keys node !! pos = Some k)) eqn:E.
  - apply andb_true_iff in E as [E1 _]. apply Nat.ltb_lt in E1.
    unfold store_at. rewrite <- Hlen.
    destruct (pos <? length (Keys node))%nat eqn:E2; [|apply Nat.ltb_ge in E2; lia].
    eexists; split; [reflexivity|].
    split; simpl; [done|]. by rewrite length_insert.
  - unfold insert_at. rewrite <- Hlen.
    destruct (pos <=? length (Keys node))%nat eqn:E2; [|apply Nat.leb_gt in E2; lia].
    eexists; split; [reflexivity|].
    split; simpl; [done|].
    rewrite !length_app. simpl. rewrite !length_take, !length_drop. lia.
Qed.

Lemma insert_leaf k v node :
  IsLeaf node = true -> insert k v node = insertIntoLeaf node k v.
Proof. intros H. destruct node; simpl in *. by rewrite H. Qed.

Lemma Put_ok bt k v :
  tree_ok bt -> exists bt' r, Put bt k v = Done bt' /\ root bt' = Some r /\ leaf_ok r.
Proof.
  unfold tree_ok, Put. destruct (root bt) as [r|]; intros H.
  - rewrite insert_leaf by apply H.
    destruct (insertIntoLeaf_ok r k v H) as (r' & -> & Hr').
    simpl. eauto.
  - eexists _, _. split; [reflexivity|]. split; [reflexivity|]. by split.
Qed.

Lemma range_leaf_spec p keys : forall i values vals results,
  drop i values = vals -> length keys = length vals ->
  range_leaf p i keys values results = Done (results ++ prefixed p keys vals).
Proof.
  induction keys as [|k keys IH]; intros i values vals results Hd Hl.
  - destruct vals; [|done]. simpl. by rewrite app_nil_r.
  - destruct vals as [|v vals]; [done|]. simpl in Hl.
    assert (Hi : values !! i = Some v).
    { rewrite <- (Nat.add_0_r i), <- lookup_drop, Hd. done. }
    assert (Hd' : drop (S i) values = vals).
    { rewrite <- (drop_drop values 1 i) || idtac.
      erewrite drop_S in Hd by exact Hi. by inversion Hd. }
    cbn [range_leaf]. unfold prefixed. cbn [zip zip_with List.filter fst].
    destruct (HasPrefix k p) eqn:E.
    + unfold index. rewrite Hi. cbn.
      rewrite (IH (S i) values vals) by (done || lia).
      unfold prefixed. by rewrite <- app_assoc.
    + rewrite (IH (S i) values vals) by (done || lia). done.
Qed.

Lemma build_ok init puts :
  tree_ok init ->
  exists bt, build init puts = Done bt /\ tree_ok bt.
Proof.
  unfold build. revert init. induction puts as [|[k v] puts IH]; intros init Hinit.
  - simpl. eauto.
  - simpl. destruct (Put_ok init k v Hinit) as (bt' & r & -> & Hr & Hok).
    apply IH. unfold tree_ok. by rewrite Hr.
Qed.


End BTreeFacts.

(** ** The leaf as a sorted map *)

Section SortedLeaf.
Import BTree.

Lemma sort_Search_loop_spec (f : nat -> bool) :
  (forall x y, (x <= y)%nat -> f x = true -> f y = true) ->
  forall fuel i j,
    (i <= j)%nat -> (j - i <= fuel)%nat ->
    (forall x, (x < i)%nat -> f x = false) ->
    (forall x, (j <= x)%nat -> f x = true) ->
    (forall x, (x < sort_Search_loop fuel f i j)%nat -> f x = false)
    /\ (forall x, (sort_Search_loop fuel f i j <= x)%nat -> f x = true).
Proof.
  intros Hmono. induction fuel as [|fuel IH]; intros i j Hij Hfuel Hlo Hhi;
    cbn [sort_Search_loop].
  - assert (i = j) by lia. subst j. by split.
  - destruct (i <? j)%nat eqn:E.
    + apply Nat.ltb_lt in E.
      assert (Hh : (i <= (i + j) / 2 < j)%nat).
      { split.
        - apply Nat.div_le_lower_bound; lia.
        - apply Nat.Div0.div_lt_upper_bound; lia. }
      set (h := ((i + j) / 2)%nat) in *.
      destruct (f h) eqn:Efh; simpl.
      * apply IH; [lia | lia | done |].
        intros x Hx. by apply (Hmono h).
      * apply IH; [lia | lia | | done].
        intros x Hx. destruct (f x) eqn:Efx; [|done].
        assert (f h = true) by (apply (Hmono x); [lia | done]). congruence.
    + apply Nat.ltb_ge in E. assert (i = j) by lia. subst j. by split.
Qed.

Lemma leb_trans_lt k s s' :
  String.leb k s = true -> String.ltb s s' = true -> String.leb k s' = true.
Proof.
  rewrite !leb_ltb, !negb_true_iff. intros H1 H2.
  destruct (String.ltb s' k) eqn:E; [|done].
  by rewrite (ltb_trans s s' k) in H1.
Qed.

Lemma keys_sorted_lookup ks i j s s' :
  keys_sorted ks -> (i < j)%nat -> ks !! i = Some s -> ks !! j = Some s' ->
  String.ltb s s' = true.
Proof.
  intros Hso Hij Hi Hj.
  rewrite <- (take_drop j ks) in Hso, Hi.
  rewrite lookup_app_l in Hi.
  2:{ rewrite length_take. apply lookup_lt_Some in Hj. lia. }
  eapply (StronglySorted_app_1_elem_of _ _ _ s s' Hso).
  - by eapply list_elem_of_lookup_2.
  - apply list_elem_of_lookup. exists 0%nat. by rewrite lookup_drop, Nat.add_0_r.
Qed.

Lemma SearchStrings_spec ks k :
  keys_sorted ks ->
  (SearchStrings ks k <= length ks)%nat
  /\ Forall (fun s => String.ltb s k = true) (take (SearchStrings ks k) ks)
  /\ Forall (fun s => String.ltb s k = false) (drop (SearchStrings ks k) ks).
Proof.
  intros Hso. split; [apply SearchStrings_le|].
  unfold SearchStrings, sort_Search.
  set (f := fun i => match ks !! i with Some s => String.leb k s | None => true end).
  destruct (sort_Search_loop_spec f) with (fuel := length ks) (i := 0%nat) (j := length ks)
    as [Hlo Hhi].
  - intros x y Hxy. unfold f.
    destruct (ks !! y) as [s'|] eqn:Ey; [|done].
    destruct (ks !! x) as [s|] eqn:Ex.
    + destruct (decide (x = y)) as [->|Hne]; [congruence|].
      intros Hk. eapply leb_trans_lt; [exact Hk|].
      apply (keys_sorted_lookup ks x y s s'); [done | lia | done | done].
    + apply lookup_ge_None in Ex. apply lookup_lt_Some in Ey. lia.
  - lia.
  - lia.
  - intros x Hx. exfalso. lia.
  - intros x Hx. unfold f. by rewrite (proj2 (lookup_ge_None ks x)).
  - set (pos := sort_Search_loop (length ks) f 0 (length ks)) in *.
    split; apply Forall_lookup; intros i s Hi.
    + apply lookup_take_Some in Hi as [Hi Hlt].
      specialize (Hlo i Hlt). unfold f in Hlo. rewrite Hi, leb_ltb in Hlo.
      by apply negb_false_iff in Hlo.
    + rewrite lookup_drop in Hi.
      specialize (Hhi (pos + i)%nat ltac:(lia)). unfold f in Hhi.
      rewrite Hi, leb_ltb in Hhi. by apply negb_true_iff in Hhi.
Qed.

Lemma find_kv_app k l1 l2 :
  find_kv k (l1 ++ l2) =
  match find_kv k l1 with Some x => Some x | None => find_kv k l2 end.
Proof.
  unfold find_kv. induction l1 as [|[k1 v1] l1 IH]; simpl; [done|].
  by destruct (String.eqb k1 k).
Qed.

Lemma find_kv_absent k ks : forall vs,
  Forall (fun s => s <> k) ks -> find_kv k (zip ks vs) = None.
Proof.
  unfold find_kv. induction ks as [|s ks IH]; intros vs Hall; [done|].
  destruct vs as [|v vs]; [done|]. apply Forall_cons in Hall as [Hs Hall]. simpl.
  destruct (String.eqb_spec s k); [done|]. by apply IH.
Qed.

Lemma zip_split {A B} pos (ks : list A) (vs : list B) :
  zip ks vs = zip (take pos ks) (take pos vs) ++ zip (drop pos ks) (drop pos vs).
Proof.
  revert ks vs. induction pos as [|pos IH]; intros ks vs; [done|].
  destruct ks as [|k ks]; [done|]. destruct vs as [|v vs]; simpl.
  - by destruct (take pos ks), (drop pos ks).
  - by rewrite <- IH.
Qed.

Lemma below_ne k ks :
  Forall (fun s => String.ltb s k = true) ks -> Forall (fun s => s <> k) ks.
Proof.
  intros H. eapply Forall_impl; [exact H|].
  intros s Hs ->. by rewrite ltb_irrefl in Hs.
Qed.

Lemma above_ne k ks :
  Forall (fun s => String.ltb k s = true) ks -> Forall (fun s => s <> k) ks.
Proof.
  intros H. eapply Forall_impl; [exact H|].
  intros s Hs ->. by rewrite ltb_irrefl in Hs.
Qed.

(** In a sorted slice, everything from the position the search returns
    on is above [k], unless [k] sits at that position. *)
Lemma drop_above ks k pos :
  keys_sorted ks ->
  Forall (fun s => String.ltb s k = false) (drop pos ks) ->
  ks !! pos <> Some k ->
  Forall (fun s => String.ltb k s = true) (drop pos ks).
Proof.
  intros Hso Hge Hne.
  rewrite <- (take_drop pos ks) in Hso. apply StronglySorted_app_1_r in Hso.
  rewrite <- (Nat.add_0_r pos), <- lookup_drop in Hne.
  destruct (drop pos ks) as [|s0 rest]; [done|]. simpl in Hne.
  apply Forall_cons in Hge as [H0 _].
  assert (Hk0 : String.ltb k s0 = true).
  { apply ltb_total; [done|]. congruence. }
  apply StronglySorted_cons in Hso as [Hall _].
  constructor; [done|].
  eapply Forall_impl; [exact Hall|]. intros s Hs. simpl in Hs. by eapply ltb_trans.
Qed.

Lemma insertIntoLeaf_spec node k v :
  leaf_sorted node ->
  exists node',
    insertIntoLeaf node k v = Done node' /\ leaf_sorted node'
    /\ forall k', leaf_lookup k' node' =
                  if decide (k' = k) then Some v else leaf_lookup k' node.
Proof.
  intros [[Hleaf Hlen] Hso]. unfold insertIntoLeaf.
  destruct (SearchStrings_spec (Keys node) k Hso) as (Hpos & Hlt & Hge).
  set (pos := SearchStrings (Keys node) k) in *.
  destruct ((pos <? length (Keys node))%nat && bool_decide (Keys node !! pos = Some k)) eqn:E.
  - apply andb_true_iff in E as [E1 E2]. apply Nat.ltb_lt in E1.
    apply bool_decide_eq_true in E2.
    unfold store_at. rewrite <- Hlen.
    destruct (pos <? length (Keys node))%nat eqn:E3; [|apply Nat.ltb_ge in E3; lia].
    eexists. split; [reflexivity|]. split.
    { split; [split|]; simpl; [done | by rewrite length_insert | done]. }
    intros k'. unfold leaf_lookup. simpl.
    destruct (lookup_lt_is_Some_2 (Values node) pos ltac:(lia)) as [vold Hvold].
    rewrite (zip_split pos (Keys node) (<[pos:=v]> (Values node))).
    rewrite (zip_split pos (Keys node) (Values node)).
    rewrite take_insert_ge by lia.
    rewrite (drop_S _ _ _ E2), (drop_S (Values node) vold pos Hvold).
    rewrite (drop_S (<[pos:=v]> (Values node)) v pos)
      by (apply list_lookup_insert_eq; lia).
    rewrite drop_insert_lt by lia. simpl.
    rewrite !find_kv_app.
    destruct (decide (k' = k)) as [->|Hne].
    + rewrite find_kv_absent by (by apply below_ne).
      unfold find_kv. simpl. by rewrite String.eqb_refl.
    + destruct (find_kv k' (zip (take pos (Keys node)) (take pos (Values node)))); [done|].
      unfold find_kv. simpl. by destruct (String.eqb_spec k k').
  - assert (Hne : Keys node !! pos <> Some k).
    { intros Hk. apply andb_false_iff in E as [E|E].
      - apply Nat.ltb_ge in E. apply lookup_lt_Some in Hk. lia.
      - by apply bool_decide_eq_false in E. }
    pose proof (drop_above _ _ _ Hso Hge Hne) as Hgt.
    unfold insert_at. rewrite <- Hlen.
    destruct (pos <=? length (Keys node))%nat eqn:E3; [|apply Nat.leb_gt in E3; lia].
    eexists. split; [reflexivity|]. split.
    { split; [split|]; simpl; [done | |].
      - rewrite !length_app. simpl. rewrite !length_take, !length_drop. lia.
      - unfold keys_sorted in *. rewrite <- (take_drop pos (Keys node)) in Hso.
        apply StronglySorted_app in Hso as (Hcross & Hs1 & Hs2).
        apply StronglySorted_app. split_and!; [|done|].
        + intros x1 x2 H1 H2. apply elem_of_cons in H2 as [->|H2]; [|by apply Hcross].
          by apply (proj1 (Forall_forall _ _) Hlt).
        + by apply StronglySorted_cons. }
    intros k'. unfold leaf_lookup. simpl.
    rewrite (zip_split pos (Keys node) (Values node)).
    rewrite zip_with_app by (rewrite !length_take; lia). simpl.
    rewrite !find_kv_app.
    destruct (decide (k' = k)) as [->|Hne'].
    + rewrite find_kv_absent by (by apply below_ne).
      unfold find_kv. simpl. by rewrite String.eqb_refl.
    + destruct (find_kv k' (zip (take pos (Keys node)) (take pos (Values node)))); [done|].
      unfold find_kv at 1. simpl. by destruct (String.eqb_spec k k').
Qed.

Lemma search_leaf_spec k r :
  leaf_sorted r ->
  search k r = match leaf_lookup k r with
               | Some v => Done v
               | None => Fail ErrKeyNotFound
               end.
Proof.
  intros [[Hleaf Hlen] Hso].
  destruct (SearchStrings_spec (Keys r) k Hso) as (Hpos & Hlt & Hge).
  unfold leaf_lookup.
  rewrite (zip_split (SearchStrings (Keys r) k) (Keys r) (Values r)), find_kv_app.
  rewrite find_kv_absent by (by apply below_ne).
  destruct r as [lf ks vs cs md]; simpl in *. subst lf.
  set (pos := SearchStrings ks k) in *.
  destruct ((pos <? length ks)%nat && bool_decide (ks !! pos = Some k)) eqn:E.
  - apply andb_true_iff in E as [E1 E2]. apply Nat.ltb_lt in E1.
    apply bool_decide_eq_true in E2.
    destruct (lookup_lt_is_Some_2 vs pos ltac:(lia)) as [v Hv].
    rewrite (drop_S _ _ _ E2), (drop_S _ _ _ Hv). unfold index. rewrite Hv.
    unfold find_kv. simpl. by rewrite String.eqb_refl.
  - assert (Hne : ks !! pos <> Some k).
    { intros Hk. apply andb_false_iff in E as [E|E].
      - apply Nat.ltb_ge in E. apply lookup_lt_Some in Hk. lia.
      - by apply bool_decide_eq_false in E. }
    pose proof (drop_above _ _ _ Hso Hge Hne) as Hgt.
    by rewrite find_kv_absent by (by apply above_ne).
Qed.

Lemma leaf_sorted_ok r : leaf_sorted r -> leaf_ok r.
Proof. by intros [? _]. Qed.

Lemma tree_sorted_ok bt : tree_sorted bt -> tree_ok bt.
Proof.
  unfold tree_sorted, tree_ok. destruct (root bt); [apply leaf_sorted_ok|done].
Qed.

Lemma Put_spec bt k v :
  tree_sorted bt ->
  exists bt' r,
    Put bt k v = Done bt' /\ root bt' = Some r /\ leaf_sorted r
    /\ forall k', tree_lookup k' bt' =
                  if decide (k' = k) then Some v else tree_lookup k' bt.
Proof.
  unfold tree_sorted, Put, tree_lookup. destruct (root bt) as [r|]; intros H.
  - rewrite insert_leaf by apply H.
    destruct (insertIntoLeaf_spec r k v H) as (r' & -> & Hr' & Hl).
    simpl. eexists _, r'. split_and!; [done..|]. intros k'. simpl. apply Hl.
  - eexists _, _. split_and!; [reflexivity | reflexivity | |].
    + split; [by split|]. repeat constructor.
    + intros k'. simpl. unfold leaf_lookup, find_kv. simpl.
      destruct (String.eqb_spec k k'), (decide (k' = k)); simpl; congruence.
Qed.

Lemma Get_spec bt k :
  tree_sorted bt ->
  Get bt k = match tree_lookup k bt with
             | Some v => Done v
             | None => Fail ErrKeyNotFound
             end.
Proof.
  unfold tree_sorted, Get, tree_lookup. destruct (root bt) as [r|]; intros H; [|done].
  simpl. by apply search_leaf_spec.
Qed.

Lemma NewBTree_sorted : tree_sorted NewBTree.
Proof. split; [by split|]. constructor. Qed.





End SortedLeaf.

(** ** The memtable as a sorted map *)

Section MemtableFacts.
Import Memtable.

Lemma advance_suffix i k l : forall start,
  l `suffix_of` start -> advance i k start l `suffix_of` start.
Proof.
  induction l as [|n l IH]; intros start Hs; simpl; [done|].
  assert (Hl : l `suffix_of` start).
  { etrans; [|exact Hs]. apply suffix_cons_r. done. }
  destruct (i <=? height n)%nat.
  - destruct (String.ltb (key n) k); [|done].
    etrans; [apply IH; done | exact Hl].
  - by apply IH.
Qed.

Lemma descend_suffix i k : forall rest, descend i k rest `suffix_of` rest.
Proof.
  induction i as [|i IH]; intros rest; simpl.
  - by apply advance_suffix.
  - etrans; [apply IH|]. by apply advance_suffix.
Qed.

Lemma locate_app mt k :
  nodes mt = (locate mt k).1 ++ (locate mt k).2.
Proof.
  unfold locate. simpl.
  destruct (descend_suffix (level mt) k (nodes mt)) as [pre Hpre].
  remember (descend (level mt) k (nodes mt)) as r eqn:Hr. clear Hr.
  rewrite Hpre, length_app.
  replace (length pre + length r - length r)%nat with (length pre) by lia.
  by rewrite take_app_length.
Qed.

Lemma Delete_absent mt k :
  k ∉ List.map key (nodes mt) -> Delete mt k = (mt, false).
Proof.
  intros Hk. unfold Delete.
  pose proof (locate_app mt k) as Happ.
  destruct (locate mt k) as [before [|current after]]; [done|].
  destruct (String.eqb (key current) k) eqn:E; [|done].
  apply String.eqb_eq in E. exfalso. apply Hk.
  simpl in Happ. rewrite Happ, List.map_app. simpl.
  apply elem_of_app. right. rewrite E. apply list_elem_of_here.
Qed.

Lemma sorted_app_r l1 l2 : sorted (l1 ++ l2) -> sorted l2.
Proof. apply StronglySorted_app_1_r. Qed.

Lemma advance_skips i k l : forall start pre,
  start = pre ++ l -> sorted start ->
  exists pre', start = pre' ++ advance i k start l /\ Forall (below k) pre'.
Proof.
  induction l as [|n l IH]; intros start pre Hst Hso; simpl.
  - exists []. by split.
  - destruct (i <=? height n)%nat.
    + destruct (String.ltb (key n) k) eqn:E.
      * assert (Hl : sorted l).
        { rewrite Hst in Hso. apply sorted_app_r in Hso.
          by apply StronglySorted_inv in Hso as [? _]. }
        destruct (IH l [] eq_refl Hl) as (pre' & Hpre' & Hall).
        exists (pre ++ n :: pre'). split.
        -- rewrite Hst. rewrite <- app_assoc. simpl. by rewrite <- Hpre'.
        -- apply Forall_app. split; [|by constructor].
           rewrite Hst in Hso.
           apply Forall_forall. intros x Hx. unfold below.
           eapply ltb_trans; [|exact E].
           eapply (StronglySorted_app_1_elem_of lt_key pre (n :: l)); [done..|].
           apply list_elem_of_here.
      * exists []. by split.
    + apply (IH start (pre ++ [n])); [|done].
      by rewrite <- app_assoc.
Qed.

Lemma advance_0_stops k l : stops_at k (advance 0 k l l).
Proof.
  induction l as [|n l IH]; simpl; [done|].
  destruct (String.ltb (key n) k) eqn:E; [done|]. simpl. done.
Qed.

Lemma descend_spec i k : forall rest,
  sorted rest ->
  exists pre, rest = pre ++ descend i k rest /\ Forall (below k) pre
              /\ stops_at k (descend i k rest).
Proof.
  induction i as [|i IH]; intros rest Hso; simpl.
  - destruct (advance_skips 0 k rest rest [] eq_refl Hso) as (pre & Hpre & Hall).
    exists pre. split_and!; [done..|]. apply advance_0_stops.
  - destruct (advance_skips (S i) k rest rest [] eq_refl Hso) as (p1 & Hp1 & Hall1).
    assert (Hso' : sorted (advance (S i) k rest rest)).
    { rewrite Hp1 in Hso. by apply sorted_app_r in Hso. }
    destruct (IH _ Hso') as (p2 & Hp2 & Hall2 & Hstop).
    exists (p1 ++ p2). split_and!; [|by apply Forall_app|done].
    rewrite <- app_assoc, <- Hp2. done.
Qed.

Lemma locate_spec mt k :
  sorted (nodes mt) ->
  nodes mt = (locate mt k).1 ++ (locate mt k).2
  /\ Forall (below k) (locate mt k).1
  /\ stops_at k (locate mt k).2.
Proof.
  intros Hso. split; [apply locate_app|].
  destruct (descend_spec (level mt) k (nodes mt) Hso) as (pre & Hpre & Hall & Hstop).
  unfold locate. simpl. split; [|done].
  remember (descend (level mt) k (nodes mt)) as r eqn:Hr. clear Hr.
  rewrite Hpre, length_app.
  replace (length pre + length r - length r)%nat with (length pre) by lia.
  by rewrite take_app_length.
Qed.

Lemma find_node_app k l1 l2 :
  find_node k (l1 ++ l2) =
  match find_node k l1 with Some n => Some n | None => find_node k l2 end.
Proof.
  unfold find_node. induction l1 as [|n l1 IH]; simpl; [done|].
  by destruct (String.eqb (key n) k).
Qed.

Lemma find_node_below k l : Forall (below k) l -> find_node k l = None.
Proof.
  unfold find_node. induction 1 as [|n l Hn _ IH]; simpl; [done|].
  destruct (String.eqb (key n) k) eqn:E; [|done].
  apply String.eqb_eq in E. unfold below in Hn. rewrite E, ltb_irrefl in Hn. done.
Qed.

Lemma find_node_above k l : Forall (above k) l -> find_node k l = None.
Proof.
  unfold find_node. induction 1 as [|n l Hn _ IH]; simpl; [done|].
  destruct (String.eqb (key n) k) eqn:E; [|done].
  apply String.eqb_eq in E. unfold above in Hn. rewrite E, ltb_irrefl in Hn. done.
Qed.

Lemma sorted_tail_above c l k :
  sorted (c :: l) -> (key c = k \/ above k c) -> Forall (above k) l.
Proof.
  intros Hso Hc. apply StronglySorted_cons in Hso as [Hall _].
  eapply Forall_impl; [exact Hall|]. intros n Hn. unfold above, lt_key in *.
  destruct Hc as [<-|Hc]; [done|]. by eapply ltb_trans.
Qed.

Lemma sorted_insert before rest n k :
  key n = k -> Forall (below k) before -> Forall (above k) rest ->
  sorted (before ++ rest) -> sorted (before ++ n :: rest).
Proof.
  intros Hn Hb Ha Hso. apply StronglySorted_app in Hso as (Hcross & Hs1 & Hs2).
  apply StronglySorted_app. split_and!; [|done|].
  - intros x1 x2 H1 H2. apply elem_of_cons in H2 as [->|H2]; [|by apply Hcross].
    unfold lt_key. rewrite Hn. by apply (proj1 (Forall_forall _ _) Hb).
  - apply StronglySorted_cons. split; [|done].
    eapply Forall_impl; [exact Ha|]. intros x Hx. unfold lt_key. by rewrite Hn.
Qed.

Lemma sorted_remove before c after :
  sorted (before ++ c :: after) -> sorted (before ++ after).
Proof.
  intros Hso. apply StronglySorted_app in Hso as (Hcross & Hs1 & Hs2).
  apply StronglySorted_cons in Hs2 as [_ Hs2].
  apply StronglySorted_app. split_and!; [|done..].
  intros x1 x2 H1 H2. apply Hcross; [done|]. by apply elem_of_cons; right.
Qed.

Lemma locate_located mt k :
  sorted (nodes mt) -> located k (nodes mt) (locate mt k).1 (locate mt k).2.
Proof.
  intros Hso. destruct (locate_spec mt k Hso) as (Happ & Hb & Hstop).
  destruct (locate mt k) as [before rest]; simpl in *.
  destruct rest as [|c after].
  - by apply located_miss.
  - simpl in Hstop. rewrite Happ in Hso. apply sorted_app_r in Hso.
    destruct (decide (key c = k)) as [Heq|Hne].
    + apply located_hit; [done..|]. eapply sorted_tail_above; eauto.
    + assert (Hc : above k c) by (by apply ltb_total).
      apply located_miss; [done..|]. constructor; [done|].
      eapply sorted_tail_above; eauto.
Qed.

Lemma Put_nodes mt k v :
  sorted (nodes mt) ->
  exists before n after,
    nodes (Put mt k v) = before ++ n :: after
    /\ key n = k /\ value n = v
    /\ Forall (below k) before /\ Forall (above k) after
    /\ ((nodes mt = before ++ after /\ ttl n = None)
        \/ exists c, nodes mt = before ++ c :: after /\ key c = k /\ ttl n = ttl c).
Proof.
  intros Hso. pose proof (locate_located mt k Hso) as Hloc.
  unfold Put. destruct (locate mt k) as [before rest]; simpl in Hloc.
  inversion Hloc as [b c after Happ Hkey Hb Ha | b r Happ Hb Ha]; subst.
  - rewrite String.eqb_refl. simpl.
    exists before, (mkSkipListNode (key c) v (height c) (ttl c)), after.
    split_and!; try done. right. by exists c.
  - destruct rest as [|c after].
    + destruct (randomLevel (rand mt)) as [newLevel r]. simpl.
      exists before, (mkSkipListNode k v newLevel None), [].
      split_and!; try done. by left.
    + assert (E : String.eqb (key c) k = false).
      { apply String.eqb_neq. intros Heq. apply Forall_cons in Ha as [Hc _].
        unfold above in Hc. by rewrite Heq, ltb_irrefl in Hc. }
      rewrite E. destruct (randomLevel (rand mt)) as [newLevel r]. simpl.
      exists before, (mkSkipListNode k v newLevel None), (c :: after).
      split_and!; try done. by left.
Qed.

Lemma Delete_nodes mt k :
  sorted (nodes mt) ->
  (Delete mt k = (mt, false) /\ find_node k (nodes mt) = None)
  \/ exists before c after,
       nodes mt = before ++ c :: after /\ key c = k
       /\ Forall (below k) before /\ Forall (above k) after
       /\ nodes (Delete mt k).1 = before ++ after /\ (Delete mt k).2 = true.
Proof.
  intros Hso. pose proof (locate_located mt k Hso) as Hloc.
  unfold Delete. destruct (locate mt k) as [before rest]; simpl in Hloc.
  inversion Hloc as [b c after Happ Hkey Hb Ha | b r Happ Hb Ha]; subst.
  - right. rewrite String.eqb_refl. simpl. exists before, c, after. done.
  - left. rewrite Happ, find_node_app, find_node_below, find_node_above by done.
    split; [|done]. destruct rest as [|c after]; [done|].
    assert (E : String.eqb (key c) k = false).
    { apply String.eqb_neq. intros Heq. apply Forall_cons in Ha as [Hc _].
      unfold above in Hc. by rewrite Heq, ltb_irrefl in Hc. }
    by rewrite E.
Qed.

Lemma find_node_skip k' n l :
  key n <> k' -> find_node k' (n :: l) = find_node k' l.
Proof.
  intros Hne. unfold find_node. simpl.
  by destruct (String.eqb_spec (key n) k').
Qed.

Lemma find_node_hit n l : find_node (key n) (n :: l) = Some n.
Proof. unfold find_node. simpl. by rewrite String.eqb_refl. Qed.

Lemma Put_wf mt k v : mt_wf mt -> mt_wf (Put mt k v).
Proof.
  intros [Hso Httl].
  destruct (Put_nodes mt k v Hso) as (before & n & after & Hnodes & Hk & Hv & Hb & Ha & Hcase).
  unfold mt_wf. rewrite Hnodes.
  destruct Hcase as [[Hn Hnone] | (c & Hn & Hc & Hcttl)]; rewrite Hn in Hso, Httl.
  - split.
    + by apply (sorted_insert before after n k).
    + apply Forall_app in Httl as [H1 H2]. apply Forall_app. split; [done|].
      by constructor.
  - split.
    + apply (sorted_insert before after n k); try done.
      by apply sorted_remove in Hso.
    + apply Forall_app in Httl as [H1 H2]. apply Forall_cons in H2 as [H2 H3].
      apply Forall_app. split; [done|]. constructor; [congruence|done].
Qed.

Lemma lookup_Put mt k v k' :
  sorted (nodes mt) ->
  mt_lookup (Put mt k v) k' = if decide (k' = k) then Some v else mt_lookup mt k'.
Proof.
  intros Hso. unfold mt_lookup.
  destruct (Put_nodes mt k v Hso) as (before & n & after & -> & Hk & Hv & Hb & Ha & Hcase).
  destruct (decide (k' = k)) as [->|Hne].
  - rewrite find_node_app, find_node_below by done.
    rewrite <- Hk, find_node_hit. simpl. by rewrite Hv.
  - rewrite find_node_app, find_node_skip by congruence.
    destruct Hcase as [[-> _] | (c & -> & Hc & _)].
    + by rewrite find_node_app.
    + rewrite find_node_app, (find_node_skip k' c) by congruence. done.
Qed.

Lemma Delete_wf mt k : mt_wf mt -> mt_wf (Delete mt k).1.
Proof.
  intros [Hso Httl].
  destruct (Delete_nodes mt k Hso) as [[-> _] | (before & c & after & Hn & Hc & Hb & Ha & Hn' & _)].
  - done.
  - unfold mt_wf. rewrite Hn'. rewrite Hn in Hso, Httl. split.
    + by apply sorted_remove in Hso.
    + apply Forall_app in Httl as [H1 H2]. apply Forall_cons in H2 as [_ H2].
      by apply Forall_app.
Qed.

Lemma lookup_Delete mt k k' :
  sorted (nodes mt) ->
  mt_lookup (Delete mt k).1 k' = if decide (k' = k) then None else mt_lookup mt k'.
Proof.
  intros Hso. unfold mt_lookup.
  destruct (Delete_nodes mt k Hso) as [[-> Hnone] | (before & c & after & Hn & Hc & Hb & Ha & -> & _)].
  - simpl. destruct (decide (k' = k)) as [->|]; [by rewrite Hnone|done].
  - rewrite Hn. destruct (decide (k' = k)) as [->|Hne].
    + by rewrite find_node_app, find_node_below, find_node_above.
    + rewrite !find_node_app, (find_node_skip k' c) by congruence. done.
Qed.

Lemma Get_lookup mt now k : mt_wf mt -> Get mt now k = mt_lookup mt k.
Proof.
  intros [Hso Httl]. pose proof (locate_located mt k Hso) as Hloc.
  unfold Get, mt_lookup. destruct (locate mt k) as [before rest]; simpl in Hloc.
  inversion Hloc as [b c after Happ Hkey Hb Ha | b r Happ Hb Ha]; subst.
  - rewrite String.eqb_refl, Happ, find_node_app, find_node_below, find_node_hit by done.
    rewrite Happ in Httl. apply Forall_app in Httl as [_ H2].
    apply Forall_cons in H2 as [-> _]. done.
  - rewrite Happ, find_node_app, find_node_below, find_node_above by done.
    destruct rest as [|c after]; [done|].
    assert (E : String.eqb (key c) k = false).
    { apply String.eqb_neq. intros Heq. apply Forall_cons in Ha as [Hc _].
      unfold above in Hc. by rewrite Heq, ltb_irrefl in Hc. }
    by rewrite E.
Qed.

Lemma NewMemtable_wf m r : mt_wf (NewMemtable m r).
Proof. split; simpl; constructor. Qed.

End MemtableFacts.

(** ** Replaying the log *)

Section WALFacts.
Import WAL.

Lemma WriteEntry_file w e : file (WriteEntry w true e).1 = file w ++ frame e.
Proof.
  unfold WriteEntry, Encode, frame, types_of. simpl. by destruct (Value_ e).
Qed.

Lemma write_all_file es : forall w,
  file (write_all w es) = file w ++ concat (List.map frame es).
Proof.
  induction es as [|e es IH]; intros w.
  - simpl. by rewrite app_nil_r.
  - change (write_all w (e :: es)) with (write_all (WriteEntry w true e).1 es).
    rewrite IH, WriteEntry_file. cbn [List.map concat]. by rewrite <- app_assoc.
Qed.

(** The first frame decodes; the decoder then knows [WALEntry]. *)
Lemma Decode_first_frame e rest :
  exists seen',
    Decode_from [] (frame e ++ rest) = (Some e, mkDecoder seen' rest)
    /\ TWALEntry ∈ seen'.
Proof.
  unfold frame, types_of. destruct e as [ty k [d|v] ts tx]; simpl.
  - eexists. split; [reflexivity|]. set_solver.
  - eexists. split; [reflexivity|]. set_solver.
Qed.

(** Any further frame is refused: it starts with a definition of
    [WALEntry]. *)
Lemma Decode_next_frame seen0 es :
  TWALEntry ∈ seen0 ->
  (Decode_from seen0 (concat (List.map frame es))).1 = None.
Proof.
  intros Hseen. destruct es as [|e es]; [done|].
  simpl. unfold frame at 1, types_of. simpl. by rewrite bool_decide_eq_true_2.
Qed.

Lemma frame_length e rest : exists n, length (frame e ++ rest) = S n.
Proof. unfold frame, types_of. simpl. eauto. Qed.

Lemma ReadEntries_after_writes es :
  ReadEntries (write_all (NewWAL []) es) = take 1 es.
Proof.
  unfold ReadEntries. rewrite write_all_file.
  change (file (NewWAL [])) with (@nil gobMsg). rewrite app_nil_l.
  destruct es as [|e es]; [reflexivity|]. cbn [List.map concat take].
  destruct (frame_length e (concat (List.map frame es))) as [n ->].
  destruct (Decode_first_frame e (concat (List.map frame es))) as (seen' & Hd & Hseen).
  pose proof (Decode_next_frame seen' es Hseen) as Hn.
  cbn [ReadEntries_loop]. unfold Decode, NewDecoder. cbn [seen input].
  rewrite Hd. cbn [seen input app].
  by destruct (Decode_from seen' (concat (List.map frame es))) as [[x|] dec'].
Qed.
Lemma NewEngine_replays_first_entry threshold es bt r :
  Engine.memtable
    (Engine.NewEngine threshold (file (write_all (NewWAL []) es)) bt r)
  = foldl Engine.replay (Memtable.NewMemtable threshold r) (take 1 es).
Proof.
  unfold Engine.NewEngine, Engine.recover. simpl.
  rewrite <- ReadEntries_after_writes. by destruct (write_all (NewWAL []) es).
Qed.

End WALFacts.

(** ** Filter comparison *)

Lemma valuesEqual_panics_iff a b :
  valuesEqual a b = Panic <-> uncomparable_pair a b = true.
Proof.
  unfold valuesEqual, iface_eq, toFloat64, uncomparable_pair.
  destruct a, b; cbn [mbind outcome_bind andb];
    repeat match goal with
           | |- context [if ?c then _ else _] => destruct c
           end; split; (done || discriminate).
Qed.

(** Where it returns, [valuesEqual] returns what the specification
    says. *)
Lemma valuesEqual_matches_spec a b :
  uncomparable_pair a b = false -> valuesEqual a b = Done (valuesEqual_spec a b).
Proof.
  unfold valuesEqual, valuesEqual_spec, iface_eq, toFloat64, uncomparable_pair,
    directly_equal, is_numeric, widen.
  destruct a, b; cbn [mbind outcome_bind andb orb]; try done;
    repeat match goal with
           | |- context [if ?c then _ else _] => destruct c eqn:?
           end; cbn [orb]; try done; congruence.
Qed.

(** ** Keys, prefixes and scans *)

Section ScanFacts.
Import Memtable.

Lemma slice_to_append p s : slice_to (p +:+ s) (String.length p) = p.
Proof.
  unfold slice_to. induction p as [|a p IH]; simpl.
  - by destruct s.
  - by rewrite IH.
Qed.

Lemma length_append p s :
  String.length (p +:+ s) = (String.length p + String.length s)%nat.
Proof. induction p as [|a p IH]; simpl; [done|]. by rewrite IH. Qed.


Lemma append_assoc (a b c : string) : (a +:+ b) +:+ c = a +:+ (b +:+ c).
Proof.
  induction a as [|x a IH]; [done|].
  change (String x ((a +:+ b) +:+ c) = String x (a +:+ (b +:+ c))).
  by rewrite IH.
Qed.


(** A visitor that never stops the scan sees every value under the
    prefix, in chain order. *)
Lemma range_loop_all {S} now p (g : string -> iface -> S -> S) l : forall s,
  Forall (fun n => ttl n = None) l ->
  range_loop now p (fun k v s => (g k v s, true)) l s
  = foldl (fun s n => g (key n) (value n) s) s
          (List.filter (fun n => HasPrefix (key n) p) l).
Proof.
  induction l as [|n l IH]; intros s Hall; simpl; [done|].
  apply Forall_cons in Hall as [Hn Hall].
  destruct (HasPrefix (key n) p); simpl.
  - rewrite Hn. by apply IH.
  - by apply IH.
Qed.

End ScanFacts.

(** ** The engine *)

Section EngineFacts.
Import Engine.
Variable Sprintf_v : Value -> string.

Lemma collect_all_matching f vs : forall acc res,
  collect_all f vs acc = Done res -> res = acc ++ matching f vs.
Proof.
  induction vs as [|v vs IH]; intros acc res; simpl.
  - intros [= <-]. by rewrite app_nil_r.
  - unfold matching. simpl. fold (matching f vs).
    destruct v as [d|x]; simpl.
    + destruct (matchesFilter d f) as [[|]| |]; simpl; try done.
      * intros H. apply IH in H. by rewrite <- app_assoc in H.
      * apply IH.
    + apply IH.
Qed.

Lemma collect_fold f vs : forall acc,
  foldl (fun (a : outcome (list Document)) v => results ← a; collect f v results) acc vs
  = (results ← acc; collect_all f vs results).
Proof.
  induction vs as [|v vs IH]; intros acc; simpl.
  - by destruct acc.
  - rewrite IH. by destruct acc.
Qed.

Lemma Range_leaf bt p r :
  BTree.root bt = Some r -> leaf_ok r ->
  BTree.Range bt p = Done (prefixed p (BTree.Keys r) (BTree.Values r)).
Proof.
  intros Hr [Hleaf Hlen]. unfold BTree.Range. rewrite Hr.
  destruct r as [lf ks vs cs md]; simpl in *. subst lf.
  by rewrite (range_leaf_spec p ks 0 vs vs []).
Qed.





End EngineFacts.

Section QueryFacts.
Import Engine.

Lemma foldl_map_value {S} (g : iface -> S -> S) l : forall s,
  foldl (fun s n => g (Memtable.value n) s) s l
  = foldl (fun s v => g v s) s (List.map Memtable.value l).
Proof. induction l as [|n l IH]; intros s; simpl; [done|]. apply IH. Qed.

Lemma Query_concat e now c f res :
  mt_wf (memtable e) ->
  Query e now c f = Done res ->
  exists disk,
    BTree.Range (btree e) (c +:+ ":") = Done disk
    /\ res = matching f (scanned (memtable e) (c +:+ ":")) ++ matching f disk.
Proof.
  intros [_ Httl]. unfold Query, Memtable.Range.
  rewrite (range_loop_all now (c +:+ ":")
             (fun _ value (acc : outcome (list Document)) =>
                results ← acc; collect f value results)) by done.
  rewrite (foldl_map_value
             (fun value (acc : outcome (list Document)) =>
                results ← acc; collect f value results)).
  rewrite collect_fold. fold (scanned (memtable e) (c +:+ ":")).
  simpl.
  destruct (collect_all f (scanned (memtable e) (c +:+ ":")) []) as [r1| |] eqn:E1;
    simpl; [|done..].
  apply collect_all_matching in E1. simpl in E1. subst r1.
  destruct (BTree.Range (btree e) (c +:+ ":")) as [disk| |]; simpl; [|done..].
  intros H. apply collect_all_matching in H. eauto.
Qed.

End QueryFacts.

(** ** Invariants of the engine *)

Section EngineInvariants.
Import Engine.
Variable Sprintf_v : Value -> string.

Lemma build_root init puts r0 :
  BTree.root init = Some r0 -> leaf_ok r0 ->
  exists bt r, build init puts = Done bt /\ BTree.root bt = Some r /\ leaf_ok r.
Proof.
  unfold build. revert init r0. induction puts as [|[k v] puts IH]; intros init r0 Hr Hok.
  - simpl. eauto.
  - simpl. assert (Hinit : tree_ok init) by (unfold tree_ok; by rewrite Hr).
    destruct (Put_ok init k v Hinit) as (bt' & r & -> & Hr' & Hok').
    by apply (IH bt' r).
Qed.

Lemma Range_ok bt p : tree_ok bt -> exists vs, BTree.Range bt p = Done vs.
Proof.
  unfold tree_ok. destruct (BTree.root bt) as [r|] eqn:Hr; intros Hok.
  - rewrite (Range_leaf bt p r Hr Hok). eauto.
  - unfold BTree.Range. rewrite Hr. eauto.
Qed.

Lemma Put_docs_only mt k d :
  sorted (Memtable.nodes mt) -> docs_only mt -> docs_only (Memtable.Put mt k (IDoc d)).
Proof.
  intros Hso Hdocs. unfold docs_only in *.
  destruct (Put_nodes mt k (IDoc d) Hso)
    as (before & n & after & -> & _ & Hv & _ & _ & Hcase).
  assert (Hn : exists d0, Memtable.value n = IDoc d0) by eauto.
  destruct Hcase as [[Hnodes _] | (c & Hnodes & _)]; rewrite Hnodes in Hdocs;
    apply Forall_app in Hdocs as [H1 H2]; apply Forall_app; split; try done.
  - by constructor.
  - apply Forall_cons in H2 as [_ H2]. by constructor.
Qed.

Lemma Delete_docs_only mt k :
  sorted (Memtable.nodes mt) -> docs_only mt -> docs_only (Memtable.Delete mt k).1.
Proof.
  intros Hso Hdocs. unfold docs_only in *.
  destruct (Delete_nodes mt k Hso)
    as [[-> _] | (before & c & after & Hn & _ & _ & _ & -> & _)]; [done|].
  rewrite Hn in Hdocs. apply Forall_app in Hdocs as [H1 H2].
  apply Forall_cons in H2 as [_ H2]. by apply Forall_app.
Qed.

Lemma Put_engine_wf e now ok c i data :
  engine_wf e -> engine_wf (Put Sprintf_v e now ok c i data).1.
Proof.
  intros (Hmt & Hdocs & Hbt). unfold Put, WAL.WriteEntry. simpl.
  destruct ok; simpl; [|done].
  split_and!; simpl; [by apply Put_wf | | done].
  apply Put_docs_only; [apply Hmt | done].
Qed.

Lemma Delete_engine_wf e now ok c i :
  engine_wf e -> engine_wf (Delete e now ok c i).1.
Proof.
  intros (Hmt & Hdocs & Hbt). unfold Delete, WAL.WriteEntry. simpl.
  destruct ok; simpl; [|done].
  pose proof (Delete_wf (memtable e) (doc_key c i) Hmt) as Hd.
  pose proof (Delete_docs_only (memtable e) (doc_key c i) (proj1 Hmt) Hdocs) as Hd'.
  destruct (Memtable.Delete (memtable e) (doc_key c i)) as [mt b]. simpl in *.
  by split_and!.
Qed.

(** Writing a sorted chain into the tree: the tree then maps the keys
    of the chain to the values of the chain and every other key as
    before. *)
Lemma flush_fold l : forall bt,
  sorted l -> tree_sorted bt ->
  exists bt',
    foldl (fun (acc : outcome BTree.BTree) n =>
             bt ← acc;
             match BTree.Put bt (Memtable.key n) (Memtable.value n) with
             | Fail _ => Done bt
             | other => other
             end) (Done bt) l = Done bt'
    /\ tree_sorted bt'
    /\ forall k, tree_lookup k bt' =
                 match find_node k l with
                 | Some n => Some (Memtable.value n)
                 | None => tree_lookup k bt
                 end.
Proof.
  induction l as [|n l IH]; intros bt Hso Hok; simpl.
  - exists bt. by split_and!.
  - destruct (Put_spec bt (Memtable.key n) (Memtable.value n) Hok)
      as (bt1 & r & -> & Hr & Hleaf & Hl1).
    assert (Hok1 : tree_sorted bt1) by (unfold tree_sorted; by rewrite Hr).
    pose proof (sorted_tail_above n l (Memtable.key n) Hso (or_introl eq_refl)) as Habove.
    apply StronglySorted_cons in Hso as [_ Hso].
    destruct (IH bt1 Hso Hok1) as (bt' & -> & Hok' & Hl').
    exists bt'. split_and!; [done..|].
    intros k. rewrite Hl', Hl1. unfold find_node at 2. simpl. fold (find_node k l).
    destruct (String.eqb_spec (Memtable.key n) k) as [<-|Hne].
    + by rewrite find_node_above, decide_True.
    + by rewrite decide_False by congruence.
Qed.

Lemma HasPrefix_empty s : HasPrefix s "" = true.
Proof. unfold HasPrefix, slice_to. simpl. by destruct s. Qed.

Lemma filter_all {A} (f : A -> bool) l :
  (forall x, f x = true) -> List.filter f l = l.
Proof.
  intros Hf. induction l as [|x l IH]; simpl; [done|]. by rewrite Hf, IH.
Qed.

(** [flushMemtable] returns, and moves the memtable into the tree. *)
Lemma flushMemtable_spec e now r :
  engine_wf e ->
  exists e',
    flushMemtable e now r = Done e' /\ engine_wf e'
    /\ forall k, stored e' k = stored e k.
Proof.
  intros (Hmt & Hdocs & Hbt). unfold flushMemtable.
  destruct (Memtable.IsEmpty (memtable e)).
  { exists e. by split_and!. }
  unfold Memtable.Range.
  rewrite (range_loop_all now ""
             (fun key value (acc : outcome BTree.BTree) =>
                bt ← acc;
                match BTree.Put bt key value with
                | Fail _ => Done bt
                | other => other
                end)) by apply Hmt.
  rewrite filter_all by (intros x; apply HasPrefix_empty).
  destruct (flush_fold (Memtable.nodes (memtable e)) (btree e) (proj1 Hmt) Hbt)
    as (bt' & -> & Hok' & Hl).
  simpl. eexists. split; [reflexivity|]. split.
  - split_and!; simpl; [apply NewMemtable_wf | constructor | done].
  - intros k. unfold stored, mt_lookup. simpl. rewrite Hl.
    by destruct (find_node k (Memtable.nodes (memtable e))).
Qed.



Lemma CreateIndex_wf e now c f :
  engine_wf e ->
  CreateIndex Sprintf_v e now c f = Fail ErrIndexExists
  \/ exists e', CreateIndex Sprintf_v e now c f = Done e' /\ engine_wf e'.
Proof.
  intros (Hmt & Hdocs & Hbt). unfold CreateIndex.
  destruct (indexes e !! _); [by left|]. right.
  unfold buildIndex.
  destruct (Range_ok (btree e) (c +:+ ":") (tree_sorted_ok _ Hbt)) as [vs ->].
  simpl. eexists. split; [reflexivity|]. by split_and!.
Qed.



Lemma replay_wf mt entry :
  mt_wf mt /\ docs_only mt -> mt_wf (replay mt entry) /\ docs_only (replay mt entry).
Proof.
  intros [Hwf Hdocs]. unfold replay.
  destruct (WAL.Type_ entry); [| |done].
  - destruct (WAL.Value_ entry); [|done].
    split; [by apply Put_wf | apply Put_docs_only; [apply Hwf | done]].
  - split; [by apply Delete_wf | apply Delete_docs_only; [apply Hwf | done]].
Qed.

Lemma NewEngine_wf threshold walFile bt r :
  tree_sorted bt -> engine_wf (NewEngine threshold walFile bt r).
Proof.
  intros Hbt. unfold NewEngine, recover.
  enough (H : mt_wf (foldl replay (Memtable.NewMemtable threshold r)
                       (WAL.ReadEntries (WAL.NewWAL walFile)))
              /\ docs_only (foldl replay (Memtable.NewMemtable threshold r)
                              (WAL.ReadEntries (WAL.NewWAL walFile)))).
  { destruct H. by split_and!. }
  generalize (WAL.ReadEntries (WAL.NewWAL walFile)). intros entries.
  assert (H0 : mt_wf (Memtable.NewMemtable threshold r)
               /\ docs_only (Memtable.NewMemtable threshold r)).
  { split; [apply NewMemtable_wf | constructor]. }
  revert H0. generalize (Memtable.NewMemtable threshold r).
  induction entries as [|entry entries IH]; intros mt Hmt; simpl; [done|].
  apply IH. by apply replay_wf.
Qed.

Lemma fresh_wf threshold : engine_wf (fresh threshold).
Proof. apply NewEngine_wf, NewBTree_sorted. Qed.

End EngineInvariants.


(** ** Histories of the memtable *)

Section MemtableHistories.
Import Memtable.

Lemma wrap64_add_l a b : wrap64 (wrap64 a + b) = wrap64 (a + b).
Proof.
  unfold wrap64. f_equal.
  replace ((a + 2 ^ 63) mod 2 ^ 64 - 2 ^ 63 + b + 2 ^ 63)
    with ((a + 2 ^ 63) mod 2 ^ 64 + b) by lia.
  rewrite Zplus_mod_idemp_l. f_equal. lia.
Qed.

Lemma wrap64_sub_r a b : wrap64 (a - wrap64 b) = wrap64 (a - b).
Proof.
  unfold wrap64. f_equal.
  assert (H : 2 ^ 64 = 2 * 2 ^ 63) by reflexivity.
  set (M := (b + 2 ^ 63) mod 2 ^ 64).
  replace (a - (M - 2 ^ 63) + 2 ^ 63) with (a + 2 ^ 64 - M) by lia.
  unfold M. rewrite Zminus_mod_idemp_r.
  f_equal. lia.
Qed.

Lemma wrap64_small z : - 2 ^ 63 <= z < 2 ^ 63 -> wrap64 z = z.
Proof. intros H. unfold wrap64. rewrite Z.mod_small; lia. Qed.

(** The two ways [Put] ends, with every field of the result. *)
Lemma Put_cases mt k v :
  sorted (nodes mt) ->
  (exists before c after,
      nodes mt = before ++ c :: after /\ key c = k
      /\ Forall (below k) before /\ Forall (above k) after
      /\ Put mt k v =
         mkMemtable (before ++ mkSkipListNode k v (height c) (ttl c) :: after)
                    (level mt) (size mt) (maxSize mt) (count mt) (rand mt))
  \/ (exists before after,
      nodes mt = before ++ after
      /\ Forall (below k) before /\ Forall (above k) after
      /\ Put mt k v =
         mkMemtable (before ++ mkSkipListNode k v (randomLevel (rand mt)).1 None :: after)
                    (Nat.max (level mt) (randomLevel (rand mt)).1)
                    (wrap64 (size mt + wrap64 (len k + estimateValueSize v)))
                    (maxSize mt) (wrap64 (count mt + 1)) (randomLevel (rand mt)).2).
Proof.
  intros Hso. pose proof (locate_located mt k Hso) as Hloc.
  unfold Put. destruct (locate mt k) as [before rest]; simpl in Hloc.
  inversion Hloc as [b c after Happ Hkey Hb Ha | b r Happ Hb Ha]; subst.
  - left. rewrite String.eqb_refl. by exists before, c, after.
  - right. exists before, rest. split_and!; [done..|].
    destruct rest as [|c after].
    + by destruct (randomLevel (rand mt)).
    + assert (E : String.eqb (key c) k = false).
      { apply String.eqb_neq. intros Heq. apply Forall_cons in Ha as [Hc _].
        unfold above in Hc. by rewrite Heq, ltb_irrefl in Hc. }
      rewrite E. by destruct (randomLevel (rand mt)).
Qed.

Lemma Delete_cases mt k :
  sorted (nodes mt) ->
  (exists before c after,
      nodes mt = before ++ c :: after /\ key c = k
      /\ Forall (below k) before /\ Forall (above k) after
      /\ Delete mt k =
         (mkMemtable (before ++ after)
                     (lower_level (level mt) (before ++ after))
                     (wrap64 (size mt - wrap64 (len k + estimateValueSize (value c))))
                     (maxSize mt) (wrap64 (count mt - 1)) (rand mt), true))
  \/ (find_node k (nodes mt) = None /\ Delete mt k = (mt, false)).
Proof.
  intros Hso. pose proof (locate_located mt k Hso) as Hloc.
  unfold Delete. destruct (locate mt k) as [before rest]; simpl in Hloc.
  inversion Hloc as [b c after Happ Hkey Hb Ha | b r Happ Hb Ha]; subst.
  - left. rewrite String.eqb_refl. by exists before, c, after.
  - right. rewrite Happ, find_node_app, find_node_below, find_node_above by done.
    split; [done|]. destruct rest as [|c after]; [done|].
    assert (E : String.eqb (key c) k = false).
    { apply String.eqb_neq. intros Heq. apply Forall_cons in Ha as [Hc _].
      unfold above in Hc. by rewrite Heq, ltb_irrefl in Hc. }
    by rewrite E.
Qed.

Lemma mt_map_lookup mt k : mt_map mt !! k = mt_lookup mt k.
Proof.
  unfold mt_map, mt_lookup, find_node.
  induction (nodes mt) as [|n l IH]; simpl; [done|].
  destruct (String.eqb_spec (key n) k) as [<-|Hne].
  - unfold node_kv at 1. by rewrite lookup_insert_eq.
  - unfold node_kv at 1. by rewrite lookup_insert_ne.
Qed.

Lemma mt_map_Put mt k v :
  sorted (nodes mt) -> mt_map (Put mt k v) = <[k := v]> (mt_map mt).
Proof.
  intros Hso. apply map_eq. intros k'.
  rewrite mt_map_lookup, lookup_Put, lookup_insert by done.
  rewrite mt_map_lookup. by destruct (decide (k' = k)), (decide (k = k')); subst.
Qed.

Lemma mt_map_Delete mt k :
  sorted (nodes mt) -> mt_map (Delete mt k).1 = delete k (mt_map mt).
Proof.
  intros Hso. apply map_eq. intros k'.
  rewrite mt_map_lookup, lookup_Delete, lookup_delete by done.
  rewrite mt_map_lookup. by destruct (decide (k' = k)), (decide (k = k')); subst.
Qed.

Lemma mstep_wf mt op : mt_wf mt -> mt_wf (mstep mt op).
Proof. destruct op; simpl; [apply Put_wf | apply Delete_wf]. Qed.

Lemma mrun_wf ops : forall mt, mt_wf mt -> mt_wf (mrun mt ops).
Proof.
  unfold mrun. induction ops as [|op ops IH]; intros mt Hwf; simpl; [done|].
  by apply IH, mstep_wf.
Qed.

Lemma mrun_map ops : forall mt,
  mt_wf mt -> mt_map (mrun mt ops) = foldl mmodel (mt_map mt) ops.
Proof.
  unfold mrun. induction ops as [|op ops IH]; intros mt Hwf; simpl; [done|].
  rewrite IH by (by apply mstep_wf). f_equal.
  destruct op; simpl; [apply mt_map_Put | apply mt_map_Delete]; apply Hwf.
Qed.

Lemma sorted_keys_NoDup l : sorted l -> NoDup (key <$> l).
Proof.
  induction l as [|n l IH]; intros Hso; simpl; [constructor|].
  apply StronglySorted_cons in Hso as [Hall Hso].
  constructor; [|by apply IH].
  intros Hin. apply list_elem_of_fmap in Hin as (n' & Hk & Hn').
  apply (proj1 (Forall_forall _ _) Hall) in Hn'. unfold lt_key in Hn'.
  by rewrite Hk, ltb_irrefl in Hn'.
Qed.

Lemma node_kv_keys l : (node_kv <$> l).*1 = key <$> l.
Proof. by rewrite <- list_fmap_compose. Qed.

Lemma mt_map_size mt :
  sorted (nodes mt) -> base.size (mt_map mt) = length (nodes mt).
Proof.
  intros Hso. unfold mt_map. rewrite map_size_list_to_map, length_fmap; [done|].
  rewrite node_kv_keys. by apply sorted_keys_NoDup.
Qed.

Lemma mstep_count_ok mt op : sorted (nodes mt) -> count_ok mt -> count_ok (mstep mt op).
Proof.
  unfold count_ok. intros Hso Hc. destruct op as [k v|k]; simpl.
  - destruct (Put_cases mt k v Hso)
      as [(before & c & after & Hn & _ & _ & _ & ->) | (before & after & Hn & _ & _ & ->)];
      simpl; rewrite Hc, Hn, !length_app; simpl.
    + done.
    + rewrite wrap64_add_l. f_equal. lia.
  - destruct (Delete_cases mt k Hso)
      as [(before & c & after & Hn & _ & _ & _ & ->) | [_ ->]]; simpl; [|done].
    rewrite Hc, Hn, !length_app. simpl.
    replace (wrap64 (Z.of_nat (length before + S (length after))) - 1)
      with (wrap64 (Z.of_nat (length before + S (length after))) + (-1)) by lia.
    rewrite wrap64_add_l. f_equal. lia.
Qed.

Lemma mrun_count_ok ops : forall mt,
  mt_wf mt -> count_ok mt -> count_ok (mrun mt ops).
Proof.
  unfold mrun. induction ops as [|op ops IH]; intros mt Hwf Hc; simpl; [done|].
  apply IH; [by apply mstep_wf | apply mstep_count_ok; [apply Hwf | done]].
Qed.

Lemma randomLevel_loop_bound budget : forall r lvl,
  ((randomLevel_loop budget r lvl).1 <= lvl + budget)%nat.
Proof.
  induction budget as [|b IH]; intros r lvl; simpl; [lia|].
  destruct (coins r (drawn r)); simpl; [|lia].
  specialize (IH (mkRand (coins r) (S (drawn r))) (S lvl)). lia.
Qed.

Lemma randomLevel_bound r : ((randomLevel r).1 < maxLevel)%nat.
Proof.
  unfold randomLevel. pose proof (randomLevel_loop_bound (maxLevel - 1) r 0).
  unfold maxLevel in *. lia.
Qed.

Lemma max_height_app l1 l2 :
  max_height (l1 ++ l2) = Nat.max (max_height l1) (max_height l2).
Proof.
  induction l1 as [|n l1 IH]; simpl; [done|]. rewrite IH. lia.
Qed.

Lemma max_height_ge l n : n ∈ l -> (height n <= max_height l)%nat.
Proof.
  induction 1 as [n l|n n' l _ IH]; simpl; lia.
Qed.

Lemma max_height_lt l lvl :
  existsb (fun n => (lvl <=? height n)%nat) l = false -> (0 < lvl)%nat ->
  (max_height l < lvl)%nat.
Proof.
  induction l as [|n l IH]; simpl; intros He Hl; [done|].
  apply orb_false_iff in He as [Hn He]. apply Nat.leb_gt in Hn.
  specialize (IH He Hl). lia.
Qed.

Lemma max_height_reached l lvl :
  existsb (fun n => (lvl <=? height n)%nat) l = true -> (lvl <= max_height l)%nat.
Proof.
  induction l as [|n l IH]; simpl; intros He; [done|].
  apply orb_true_iff in He as [Hn|He].
  - apply Nat.leb_le in Hn. lia.
  - specialize (IH He). lia.
Qed.

Lemma lower_level_spec l lvl :
  (max_height l <= lvl)%nat -> lower_level lvl l = max_height l.
Proof.
  induction lvl as [|lvl IH]; intros Hle; cbn [lower_level]; [lia|].
  destruct (existsb _ l) eqn:E.
  - apply max_height_reached in E. lia.
  - apply max_height_lt in E; [|lia]. apply IH. lia.
Qed.

Lemma mstep_level_ok mt op : sorted (nodes mt) -> level_ok mt -> level_ok (mstep mt op).
Proof.
  unfold level_ok. intros Hso [Hl Hb]. destruct op as [k v|k]; simpl.
  - destruct (Put_cases mt k v Hso)
      as [(before & c & after & Hn & _ & _ & _ & ->) | (before & after & Hn & _ & _ & ->)];
      simpl.
    + split; [|done]. rewrite Hl, Hn, !max_height_app. done.
    + pose proof (randomLevel_bound (rand mt)).
      split; [|lia]. rewrite Hl, Hn, !max_height_app. simpl. lia.
  - destruct (Delete_cases mt k Hso)
      as [(before & c & after & Hn & _ & _ & _ & ->) | [_ ->]]; simpl; [|done].
    assert (Hle : (max_height (before ++ after) <= level mt)%nat).
    { rewrite Hl, Hn, !max_height_app. simpl. lia. }
    rewrite lower_level_spec by done. split; [done|lia].
Qed.

Lemma mrun_level_ok ops : forall mt,
  mt_wf mt -> level_ok mt -> level_ok (mrun mt ops).
Proof.
  unfold mrun. induction ops as [|op ops IH]; intros mt Hwf Hc; simpl; [done|].
  apply IH; [by apply mstep_wf | apply mstep_level_ok; [apply Hwf | done]].
Qed.

Lemma record_all_fold l : forall acc,
  foldl (fun s n => s ++ [(key n, value n)]) acc l = acc ++ (node_kv <$> l).
Proof.
  induction l as [|n l IH]; intros acc; simpl; [by rewrite app_nil_r|].
  rewrite IH, <- app_assoc. done.
Qed.

Lemma Range_record_all mt now p :
  mt_wf mt ->
  Range mt now p record_all [] =
  node_kv <$> List.filter (fun n => HasPrefix (key n) p) (nodes mt).
Proof.
  intros [_ Httl]. unfold Range, record_all.
  rewrite (range_loop_all now p (fun k v acc => acc ++ [(k, v)])) by done.
  by rewrite record_all_fold.
Qed.

Lemma sorted_filter f l : sorted l -> sorted (List.filter f l).
Proof.
  induction l as [|n l IH]; intros Hso; simpl; [done|].
  apply StronglySorted_cons in Hso as [Hall Hso].
  destruct (f n); [|by apply IH].
  apply StronglySorted_cons. split; [|by apply IH].
  apply Forall_forall. intros x Hx. apply list_elem_of_In, filter_In in Hx as [Hx _].
  apply (proj1 (Forall_forall _ _) Hall). by apply list_elem_of_In.
Qed.

Lemma sorted_ascending l : sorted l -> ascending (node_kv <$> l).
Proof.
  induction l as [|n l IH]; intros Hso; simpl; [constructor|].
  apply StronglySorted_cons in Hso as [Hall Hso].
  apply StronglySorted_cons. split; [|by apply IH].
  apply Forall_fmap. eapply Forall_impl; [exact Hall|]. done.
Qed.
End MemtableHistories.

(** ** Histories of the B-tree *)

Section BTreeHistories.
Import BTree.

Lemma delete_on_leaf k node : IsLeaf node = true -> delete k node = delete_leaf k node.
Proof.
  intros H. destruct node as [lf ks vs cs md]; simpl in *. subst lf.
  unfold delete_leaf. simpl. by destruct (_ && _).
Qed.

Lemma StronglySorted_remove_mid {A} (R : relation A) l1 x l2 :
  StronglySorted R (l1 ++ x :: l2) -> StronglySorted R (l1 ++ l2).
Proof.
  intros Hso. apply StronglySorted_app in Hso as (Hcross & Hs1 & Hs2).
  apply StronglySorted_cons in Hs2 as [_ Hs2].
  apply StronglySorted_app. split_and!; [|done..].
  intros x1 x2 H1 H2. apply Hcross; [done|]. by apply elem_of_cons; right.
Qed.

Lemma keys_sorted_remove (ks : list string) pos :
  keys_sorted ks -> keys_sorted (take pos ks ++ drop (pos + 1) ks).
Proof.
  intros Hso. unfold keys_sorted in *.
  destruct (ks !! pos) as [x|] eqn:E.
  - rewrite <- (take_drop pos ks), (drop_S _ _ _ E) in Hso.
    rewrite Nat.add_1_r. by eapply StronglySorted_remove_mid.
  - apply lookup_ge_None in E.
    rewrite take_ge, drop_ge, app_nil_r by lia. done.
Qed.

Lemma delete_leaf_spec node k :
  leaf_sorted node ->
  exists node',
    delete_leaf k node =
      Done (node', match leaf_lookup k node with
                   | Some _ => None
                   | None => Some ErrKeyNotFound
                   end)
    /\ leaf_sorted node'
    /\ Children node' = Children node
    /\ (leaf_lookup k node = None -> node' = node)
    /\ forall k', leaf_lookup k' node' =
                 if decide (k' = k) then None else leaf_lookup k' node.
Proof.
  intros [[Hleaf Hlen] Hso]. unfold delete_leaf.
  destruct (SearchStrings_spec (Keys node) k Hso) as (Hpos & Hlt & Hge).
  set (pos := SearchStrings (Keys node) k) in *.
  assert (Hsplit : forall k', leaf_lookup k' node =
            match find_kv k' (zip (take pos (Keys node)) (take pos (Values node))) with
            | Some x => Some x.2
            | None => snd <$> find_kv k' (zip (drop pos (Keys node)) (drop pos (Values node)))
            end).
  { intros k'. unfold leaf_lookup.
    rewrite (zip_split pos (Keys node) (Values node)) at 1. rewrite find_kv_app.
    by destruct (find_kv k' (zip (take pos (Keys node)) (take pos (Values node)))). }
  destruct ((pos <? length (Keys node))%nat && bool_decide (Keys node !! pos = Some k)) eqn:E.
  - apply andb_true_iff in E as [E1 E2]. apply Nat.ltb_lt in E1.
    apply bool_decide_eq_true in E2.
    destruct (lookup_lt_is_Some_2 (Values node) pos ltac:(lia)) as [vold Hvold].
    assert (Hgt : Forall (fun s => String.ltb k s = true) (drop (pos + 1) (Keys node))).
    { rewrite <- (take_drop pos (Keys node)) in Hso.
      apply StronglySorted_app_1_r in Hso.
      rewrite (drop_S _ _ _ E2) in Hso. apply StronglySorted_cons in Hso as [Hall _].
      by rewrite Nat.add_1_r. }
    assert (Hk : leaf_lookup k node = Some vold).
    { rewrite Hsplit, find_kv_absent by (by apply below_ne).
      rewrite (drop_S _ _ _ E2), (drop_S _ _ _ Hvold).
      unfold find_kv. simpl. by rewrite String.eqb_refl. }
    unfold remove_at. rewrite <- Hlen.
    destruct (pos + 1 <=? length (Keys node))%nat eqn:E3; [|apply Nat.leb_gt in E3; lia].
    eexists. rewrite Hk. split; [reflexivity|]. split_and!; simpl.
    + split; [split|]; simpl; [done | | by apply keys_sorted_remove].
      rewrite !length_app, !length_take, !length_drop. lia.
    + done.
    + done.
    + intros k'. unfold leaf_lookup at 1. simpl.
      rewrite zip_with_app by (rewrite !length_take; lia).
      rewrite find_kv_app.
      destruct (decide (k' = k)) as [->|Hne].
      * rewrite find_kv_absent by (by apply below_ne).
        by rewrite find_kv_absent by (by apply above_ne).
      * rewrite Hsplit.
        destruct (find_kv k' (zip (take pos (Keys node)) (take pos (Values node))));
          [done|].
        rewrite (drop_S _ _ _ E2), (drop_S _ _ _ Hvold), !Nat.add_1_r.
        unfold find_kv at 2. simpl. by destruct (String.eqb_spec k k').
  - assert (Hne : Keys node !! pos <> Some k).
    { intros Hk. apply andb_false_iff in E as [E|E].
      - apply Nat.ltb_ge in E. apply lookup_lt_Some in Hk. lia.
      - by apply bool_decide_eq_false in E. }
    pose proof (drop_above _ _ _ Hso Hge Hne) as Hgt.
    assert (Hk : leaf_lookup k node = None).
    { rewrite Hsplit, find_kv_absent by (by apply below_ne).
      by rewrite find_kv_absent by (by apply above_ne). }
    exists node. rewrite Hk. split_and!; try done.
    intros k'. destruct (decide (k' = k)) as [->|]; done.
Qed.

Lemma insertIntoLeaf_children node k v node' :
  insertIntoLeaf node k v = Done node' -> Children node' = Children node.
Proof.
  unfold insertIntoLeaf. destruct (_ && _).
  - destruct (store_at _ _ _); simpl; [|done..]. by intros [= <-].
  - destruct (insert_at (Keys node) _ _); simpl; [|done..].
    destruct (insert_at (Values node) _ _); simpl; [|done..]. by intros [= <-].
Qed.

Lemma holds_map_new : holds_map NewBTree ∅.
Proof.
  eexists. split_and!; [done | | done | done].
  split; [by split|]. constructor.
Qed.

Lemma holds_map_Put bt m k v :
  holds_map bt m ->
  exists bt', Put bt k v = Done bt' /\ holds_map bt' (<[k := v]> m).
Proof.
  intros (r & Hr & Hso & Hc & Hl). unfold Put. rewrite Hr.
  rewrite insert_leaf by apply Hso.
  destruct (insertIntoLeaf_spec r k v Hso) as (r' & Hi & Hso' & Hl').
  rewrite Hi. simpl. eexists. split; [reflexivity|].
  exists r'. split_and!; [done | done | |].
  - by rewrite (insertIntoLeaf_children _ _ _ _ Hi).
  - intros k'. rewrite Hl', lookup_insert, Hl.
    by destruct (decide (k' = k)), (decide (k = k')); subst.
Qed.

Lemma holds_map_Delete bt m k :
  holds_map bt m ->
  exists bt',
    Delete bt k = Done (bt', match m !! k with
                             | Some _ => None
                             | None => Some ErrKeyNotFound
                             end)
    /\ holds_map bt' (base.delete k m)
    /\ (m !! k = None -> bt' = bt).
Proof.
  intros (r & Hr & Hso & Hc & Hl). unfold Delete. rewrite Hr.
  rewrite delete_on_leaf by apply Hso.
  destruct (delete_leaf_spec r k Hso) as (r' & -> & Hso' & Hc' & Hsame & Hl').
  simpl. rewrite Hl. eexists. split; [reflexivity|]. split.
  - exists r'. split_and!; [done | done | by rewrite Hc' |].
    intros k'. rewrite Hl', lookup_delete, Hl.
    by destruct (decide (k' = k)), (decide (k = k')); subst.
  - intros Hnone. rewrite <- Hl in Hnone. rewrite (Hsame Hnone).
    destruct bt. simpl in Hr. by rewrite Hr.
Qed.

Lemma trun_holds ops : forall bt m,
  holds_map bt m ->
  exists bt', trun bt ops = Done bt' /\ holds_map bt' (foldl tmodel m ops).
Proof.
  induction ops as [|op ops IH]; intros bt m H; simpl; [eauto|].
  destruct op as [k v|k]; simpl.
  - destruct (holds_map_Put bt m k v H) as (bt' & -> & H'). simpl. by apply IH.
  - destruct (holds_map_Delete bt m k H) as (bt' & -> & H' & _). simpl. by apply IH.
Qed.

Lemma find_kv_to_map l k :
  (list_to_map l : gmap string iface) !! k = snd <$> find_kv k l.
Proof.
  unfold find_kv. induction l as [|[k0 v0] l IH]; simpl; [done|].
  destruct (String.eqb_spec k0 k) as [->|Hne].
  - by rewrite lookup_insert_eq.
  - by rewrite lookup_insert_ne.
Qed.

Lemma keys_sorted_NoDup ks : keys_sorted ks -> NoDup ks.
Proof.
  induction ks as [|k ks IH]; intros Hso; [constructor|].
  apply StronglySorted_cons in Hso as [Hall Hso].
  constructor; [|by apply IH].
  intros Hin. apply (proj1 (Forall_forall _ _) Hall) in Hin.
  by rewrite ltb_irrefl in Hin.
Qed.

Lemma holds_map_eq bt m r :
  holds_map bt m -> root bt = Some r ->
  m = list_to_map (zip (Keys r) (Values r)).
Proof.
  intros (r' & Hr & _ & _ & Hl) Hr2. rewrite Hr in Hr2. injection Hr2 as ->.
  apply map_eq. intros k. by rewrite find_kv_to_map, <- Hl.
Qed.

Lemma ascending_zip ks : forall vs, keys_sorted ks -> ascending (zip ks vs).
Proof.
  induction ks as [|k ks IH]; intros vs Hso; [constructor|].
  destruct vs as [|v vs]; [constructor|].
  apply StronglySorted_cons in Hso as [Hall Hso]. simpl.
  apply StronglySorted_cons. split; [|by apply IH].
  apply Forall_forall. intros [k' v'] Hin. simpl.
  apply list_elem_of_lookup in Hin as [i Hi].
  apply lookup_zip_with_Some in Hi as (? & ? & [= <- <-] & Hk & _).
  apply (proj1 (Forall_forall _ _) Hall). by eapply list_elem_of_lookup_2.
Qed.

Lemma ascending_filter f l : ascending l -> ascending (List.filter f l).
Proof.
  induction l as [|x l IH]; intros Hso; simpl; [done|].
  apply StronglySorted_cons in Hso as [Hall Hso].
  destruct (f x); [|by apply IH].
  apply StronglySorted_cons. split; [|by apply IH].
  apply Forall_forall. intros y Hy. apply list_elem_of_In, filter_In in Hy as [Hy _].
  apply (proj1 (Forall_forall _ _) Hall). by apply list_elem_of_In.
Qed.
End BTreeHistories.

(** ** Histories of a secondary index *)

Section IndexHistories.
Import Index.

Lemma Get_Put ix value docID value' :
  Get (Put ix value docID) value' =
  if decide (value' = value) then
    (if bool_decide (docID ∈ Get ix value) then Get ix value
     else Get ix value ++ [docID])
  else Get ix value'.
Proof.
  unfold Put, Get.
  destruct (entries ix !! value) as [ids|] eqn:E; simpl.
  - rewrite E. simpl. destruct (bool_decide (docID ∈ ids)); simpl.
    + destruct (decide (value' = value)) as [->|]; [by rewrite E|done].
    + destruct (decide (value' = value)) as [->|].
      * by rewrite lookup_insert_eq.
      * by rewrite lookup_insert_ne.
  - rewrite lookup_insert_eq. cbn [default].
    rewrite bool_decide_eq_false_2 by (by intros ?%not_elem_of_nil). cbn [entries app].
    destruct (decide (value' = value)) as [->|].
    + by rewrite lookup_insert_eq.
    + by rewrite !lookup_insert_ne.
Qed.

Lemma Get_Delete ix docID value :
  Get (Delete ix docID) value = remove_first docID (Get ix value).
Proof.
  unfold Delete, Get. simpl. rewrite lookup_omap.
  destruct (entries ix !! value) as [ids|]; simpl; [|done].
  by destruct (remove_first docID ids).
Qed.

Lemma remove_first_elem docID ids x :
  NoDup ids -> x ∈ remove_first docID ids <-> x ∈ ids /\ x <> docID.
Proof.
  induction ids as [|id ids IH]; intros Hnd; simpl.
  - split; [by intros ?%not_elem_of_nil | by intros [?%not_elem_of_nil _]].
  - apply NoDup_cons in Hnd as [Hid Hnd].
    destruct (String.eqb_spec id docID) as [->|Hne].
    + rewrite elem_of_cons. split.
      * intros Hx. split; [by right|]. by intros ->.
      * by intros [[->|Hx] Hne].
    + rewrite !elem_of_cons, IH by done. split.
      * intros [->|[Hx Hn]]; [by split; [left|] | by split; [right|]].
      * intros [[->|Hx] Hn]; [by left | by right].
Qed.

Lemma remove_first_NoDup docID ids : NoDup ids -> NoDup (remove_first docID ids).
Proof.
  induction ids as [|id ids IH]; intros Hnd; simpl; [done|].
  apply NoDup_cons in Hnd as [Hid Hnd].
  destruct (String.eqb id docID); [done|].
  apply NoDup_cons. split; [|by apply IH].
  intros Hin. apply remove_first_elem in Hin as [Hin _]; done.
Qed.

Lemma Put_index_ok ix value docID : index_ok ix -> index_ok (Put ix value docID).
Proof.
  intros Hok v ids. unfold Put.
  destruct (entries ix !! value) as [old|] eqn:E; simpl.
  - rewrite E. simpl. destruct (bool_decide (docID ∈ old)) eqn:Ed; simpl.
    + apply Hok.
    + apply bool_decide_eq_false in Ed.
      destruct (decide (v = value)) as [->|Hne].
      * rewrite lookup_insert_eq. intros [= <-].
        destruct (Hok _ _ E) as [Hnd _]. split.
        -- apply NoDup_app. split_and!; [done | | apply NoDup_singleton].
           intros x Hx ->%list_elem_of_singleton. done.
        -- by destruct old.
      * rewrite lookup_insert_ne by done. apply Hok.
  - rewrite lookup_insert_eq. cbn [default].
    rewrite bool_decide_eq_false_2 by (by intros ?%not_elem_of_nil). cbn [entries app].
    destruct (decide (v = value)) as [->|Hne].
    + rewrite lookup_insert_eq. intros [= <-]. split; [apply NoDup_singleton|done].
    + rewrite !lookup_insert_ne by done. apply Hok.
Qed.

Lemma Delete_index_ok ix docID : index_ok ix -> index_ok (Delete ix docID).
Proof.
  intros Hok v ids. unfold Delete. simpl. rewrite lookup_omap.
  destruct (entries ix !! v) as [old|] eqn:E; simpl; [|done].
  destruct (Hok _ _ E) as [Hnd _].
  pose proof (remove_first_NoDup docID old Hnd) as Hnd'.
  destruct (remove_first docID old) as [|x rest]; [done|].
  intros [= <-]. by split.
Qed.

Lemma NewIndex_ok field : index_ok (NewIndex field).
Proof. intros v ids. unfold NewIndex. simpl. by rewrite lookup_empty. Qed.

Lemma Get_NoDup ix value : index_ok ix -> NoDup (Get ix value).
Proof.
  intros Hok. unfold Get. destruct (entries ix !! value) as [ids|] eqn:E.
  - by destruct (Hok _ _ E).
  - constructor.
Qed.

Lemma istep_ok ix op : index_ok ix -> index_ok (istep ix op).
Proof. destruct op; simpl; [apply Put_index_ok | apply Delete_index_ok]. Qed.

Lemma irun_ok ops : forall ix, index_ok ix -> index_ok (irun ix ops).
Proof.
  unfold irun. induction ops as [|op ops IH]; intros ix Hok; simpl; [done|].
  by apply IH, istep_ok.
Qed.

Lemma pairs_Put ix value docID v id :
  pairs (Put ix value docID) v id <-> (v = value /\ id = docID) \/ pairs ix v id.
Proof.
  unfold pairs. rewrite Get_Put.
  destruct (decide (v = value)) as [->|Hne].
  - destruct (bool_decide (docID ∈ Get ix value)) eqn:Ed.
    + apply bool_decide_eq_true in Ed. split; [by right|].
      by intros [[_ ->]|?].
    + rewrite elem_of_app, list_elem_of_singleton. split.
      * intros [?| ->]; [by right | by left].
      * intros [[_ ->]|?]; [by right | by left].
  - split; [by right|]. by intros [[? _]|?].
Qed.

Lemma pairs_Delete ix docID v id :
  index_ok ix -> pairs (Delete ix docID) v id <-> pairs ix v id /\ id <> docID.
Proof.
  intros Hok. unfold pairs. rewrite Get_Delete.
  apply remove_first_elem, Get_NoDup, Hok.
Qed.

Lemma irun_pairs ops : forall ix (s : gset (string * string)),
  index_ok ix ->
  (forall v id, pairs ix v id <-> (v, id) ∈ s) ->
  forall v id, pairs (irun ix ops) v id <-> (v, id) ∈ foldl imodel s ops.
Proof.
  unfold irun. induction ops as [|op ops IH]; intros ix s Hok Hs; simpl; [done|].
  apply IH; [by apply istep_ok|].
  intros v id. destruct op as [value docID|docID]; simpl.
  - rewrite pairs_Put, Hs, elem_of_union, elem_of_singleton.
    split; [intros [[-> ->]|?]; [by left|by right] | intros [[= -> ->]|?]; [by left|by right]].
  - rewrite pairs_Delete, Hs by done. rewrite elem_of_filter. simpl. tauto.
Qed.

Lemma Size_values (ix : Index) (s : gset (string * string)) :
  index_ok ix ->
  (forall v id, pairs ix v id <-> (v, id) ∈ s) ->
  Size ix = base.size (set_map (D := gset string) fst s).
Proof.
  intros Hok Hs. unfold Size. rewrite <- size_dom. f_equal.
  apply set_eq. intros v. rewrite elem_of_dom, elem_of_map. split.
  - intros [ids E]. destruct (Hok _ _ E) as [_ Hne].
    destruct ids as [|id ids]; [done|].
    exists (v, id). split; [done|]. apply Hs. unfold pairs, Get. rewrite E. by left.
  - intros [[v' id] [-> Hin]]. simpl. apply Hs in Hin. unfold pairs, Get in Hin.
    destruct (entries ix !! v') as [ids|]; [by eexists|].
    by apply not_elem_of_nil in Hin.
Qed.
End IndexHistories.

(** * The claims *)

Section Claims.
Import Engine.

(** ** Put and Get through the memtable *)

(** [Get] reads the merged view. *)
Lemma Get_stored e now c i :
  engine_wf e ->
  Get e now c i =
  match stored e (doc_key c i) with
  | Some (IDoc d) => Done d
  | Some (IVal _) => Fail ErrDocumentNotFound
  | None => Fail ErrKeyNotFound
  end.
Proof.
  intros (Hmt & Hdocs & Hbt). unfold Get, stored.
  rewrite (Get_lookup _ now) by done.
  destruct (mt_lookup (memtable e) (doc_key c i)) as [v|] eqn:E.
  - unfold mt_lookup in E.
    destruct (find_node _ _) as [n|] eqn:En; [|done]. injection E as <-.
    apply find_some in En as [Hin _]. apply list_elem_of_In in Hin.
    by apply (proj1 (Forall_forall _ _) Hdocs) in Hin as [d ->].
  - rewrite Get_spec by done.
    by destruct (tree_lookup (doc_key c i) (btree e)) as [[d|v]|].
Qed.

Lemma stored_Put fmt e now c i data k :
  engine_wf e ->
  exists d,
    ID d = i /\ Data d = data
    /\ Version d = match mt_lookup (memtable e) (doc_key c i) with
                   | Some (IDoc d0) => wrap64 (Version d0 + 1)
                   | _ => 1
                   end
    /\ stored (Put fmt e now true c i data).1 k =
       if decide (k = doc_key c i) then Some (IDoc d) else stored e k.
Proof.
  intros (Hmt & Hdocs & Hbt). unfold Put, WAL.WriteEntry, stored. simpl.
  rewrite lookup_Put by apply Hmt. rewrite (Get_lookup _ now) by done.
  eexists. split_and!; [| | |by destruct (decide (k = doc_key c i))];
    by destruct (mt_lookup (memtable e) (doc_key c i)) as [[d0|v]|].
Qed.

Lemma stored_Delete e now c i k :
  engine_wf e ->
  stored (Delete e now true c i).1 k =
  if decide (k = doc_key c i) then tree_lookup k (btree e) else stored e k.
Proof.
  intros (Hmt & Hdocs & Hbt). unfold Delete, WAL.WriteEntry, stored. simpl.
  pose proof (lookup_Delete (memtable e) (doc_key c i) k (proj1 Hmt)) as Hl.
  destruct (Memtable.Delete (memtable e) (doc_key c i)) as [mt b]. simpl in *.
  rewrite Hl. by destruct (decide (k = doc_key c i)).
Qed.

(** A flush changes nothing [Get] can see. *)
Lemma Get_unchanged_by_flush e now r e' now' c i :
  engine_wf e -> flushMemtable e now r = Done e' ->
  Get e' now' c i = Get e now' c i.
Proof.
  intros Hwf Hflush.
  destruct (flushMemtable_spec e now r Hwf) as (e1 & He1 & Hwf1 & Hst).
  rewrite Hflush in He1. injection He1 as <-.
  by rewrite !Get_stored, Hst.
Qed.

Lemma Put_Get_memtable fmt e now now' c i data :
  engine_wf e ->
  (Put fmt e now true c i data).2 = None
  /\ exists d,
       Get (Put fmt e now true c i data).1 now' c i = Done d
       /\ ID d = i /\ Data d = data
       /\ Version d =
          match mt_lookup (memtable e) (doc_key c i) with
          | Some (IDoc d0) => wrap64 (Version d0 + 1)
          | _ => 1
          end.
Proof.
  intros Hwf. split; [done|].
  destruct (stored_Put fmt e now c i data (doc_key c i) Hwf) as (d & Hi & Hd & Hv & Hs).
  exists d. split_and!; [|done..].
  rewrite Get_stored by (by apply Put_engine_wf).
  by rewrite Hs, decide_True.
Qed.

Lemma Delete_Get_falls_through e now now' c i :
  engine_wf e ->
  (Delete e now true c i).2 = None
  /\ Get (Delete e now true c i).1 now' c i
     = match tree_lookup (doc_key c i) (btree e) with
       | Some (IDoc d) => Done d
       | Some (IVal _) => Fail ErrDocumentNotFound
       | None => Fail ErrKeyNotFound
       end.
Proof.
  intros Hwf. split.
  { unfold Delete, WAL.WriteEntry. simpl.
    by destruct (Memtable.Delete (memtable e) (doc_key c i)). }
  rewrite Get_stored by (by apply Delete_engine_wf).
  by rewrite stored_Delete, decide_True.
Qed.

(** C1 (code defect): [Put] looks for the previous version in the
    memtable only.  Once the flush started by the first write has moved
    [users/u1] to the B-tree, [Get] still returns it with version 1, yet
    the next [Put] stores version 1 again, not 2. *)
Theorem Put_after_flush_restarts_version :
  let e := state_after (fresh 1)
             [OpPut 1 true "users" "u1" alice; OpFlush 2 no_promotion] in
  run plain_v (fresh 1) [OpPut 1 true "users" "u1" alice; OpFlush 2 no_promotion]
    = Done e
  /\ Get e 3 "users" "u1" = Done alice_v1
  /\ Version alice_v1 = 1
  /\ (Put plain_v e 4 true "users" "u1" alice31).2 = None
  /\ Get (Put plain_v e 4 true "users" "u1" alice31).1 5 "users" "u1"
     = Done alice_rewritten
  /\ Data alice_rewritten = alice31
  /\ Version alice_rewritten = 1.
Proof.
  split_and!; vm_compute; reflexivity.
Qed.

(** C2 (code defect): [Delete] removes the key from the memtable only.
    After the document was flushed to the B-tree, a successful [Delete]
    is followed by a [Get] that still returns the document. *)
Theorem Delete_after_flush_leaves_document :
  run plain_v (fresh 1) put_flush_delete
    = Done (state_after (fresh 1) put_flush_delete)
  /\ (Delete (state_after (fresh 1)
                [OpPut 1 true "users" "u1" alice; OpFlush 2 no_promotion])
         4 true "users" "u1").2 = None
  /\ Get (state_after (fresh 1) put_flush_delete) 5 "users" "u1" = Done alice_v1.
Proof.
  split_and!; vm_compute; reflexivity.
Qed.

(** C3 (code defect): [WriteEntry] starts a new gob encoder for every
    entry, so every entry is preceded on disk by the type definitions;
    [ReadEntries] decodes the whole file with one decoder, which fails on
    the second definition of [WALEntry].  Of two entries written to a
    fresh log only the first is read back, and the engine recovered from
    that log does not hold the second key. *)
Theorem ReadEntries_stops_after_first_entry :
  WAL.ReadEntries
    (write_all (WAL.NewWAL []) [sample_entry "users:u1" 1; sample_entry "users:u2" 1])
  = [sample_entry "users:u1" 1]
  /\ Get (NewEngine 1024
            (WAL.file (write_all (WAL.NewWAL [])
                         [sample_entry "users:u1" 1; sample_entry "users:u2" 1]))
            BTree.NewBTree no_promotion) 0 "users" "u2"
     = Fail ErrKeyNotFound.
Proof.
  split; vm_compute; reflexivity.
Qed.




(** C5 (code defect): an index is taken to belong to a collection when
    its key merely starts with the collection name.  Deleting [u1] from
    the collection [user] therefore empties the bucket of the live
    document [users/u1] in the index [users.email]. *)
Theorem Delete_in_other_collection_empties_index :
  let ops := [OpCreateIndex 0 "users" "email";
              OpPut 1 true "users" "u1" alice;
              OpDelete 2 true "user" "u1"] in
  run plain_v (fresh 1024) ops = Done (state_after (fresh 1024) ops)
  /\ Get (state_after (fresh 1024) ops) 3 "users" "u1" = Done alice_v1
  /\ Data alice_v1 !! "email" = Some (VString "a@example.com")
  /\ (fun ix => Index.Get ix "a@example.com")
       <$> indexes (state_after (fresh 1024) ops) !! "users.email"
     = Some [].
Proof.
  split_and!; vm_compute; reflexivity.
Qed.

(** The same index also keeps the value a document no longer has:
    [updateIndexes] adds the new value and never removes the old one. *)
Lemma Put_leaves_stale_index_entry :
  let ops := [OpCreateIndex 0 "users" "email";
              OpPut 1 true "users" "u1" alice;
              OpPut 2 true "users" "u1" alice31] in
  run plain_v (fresh 1024) ops = Done (state_after (fresh 1024) ops)
  /\ (fun ix => (Index.Get ix "a@example.com", Index.Get ix "alice@example.com"))
       <$> indexes (state_after (fresh 1024) ops) !! "users.email"
     = Some (["u1"], ["u1"]).
Proof.
  split_and!; vm_compute; reflexivity.
Qed.

(** C6 (code defect): [Put] inserts into the root and only [insert]
    splits, and only children.  The root is a leaf that nothing ever
    splits: after 256 distinct keys it holds 256 keys, more than
    [btreeOrder - 1]. *)
Theorem root_leaf_outgrows_order :
  (fun bt => match BTree.root bt with
             | Some r => Some (BTree.IsLeaf r,
                               length (BTree.Keys r),
                               (BTree.btreeOrder - 1 <? length (BTree.Keys r))%nat)
             | None => None
             end) <$> outcome_to_option (build BTree.NewBTree (sample_puts 256))
  = Some (Some (true, 256%nat, true)).
Proof.
  vm_compute. reflexivity.
Qed.


(** C8, as stated, fails: [Put] with an empty collection and an empty
    id returns nil, and so does [Delete]. *)
Lemma Put_accepts_empty_strings :
  (Put plain_v (fresh 1024) 0 true "" "" alice).2 = None
  /\ (Delete (fresh 1024) 0 true "" "").2 = None.
Proof.
  split; vm_compute; reflexivity.
Qed.

(** C8, amended: the engine validates no argument.  For every
    collection and id, the empty string included, [Put] and [Delete]
    return nil when the WAL write succeeds, and after the [Put] a [Get]
    with the same collection and id returns the document written. *)
Theorem Put_Delete_take_any_strings fmt e now now' c i data :
  engine_wf e ->
  (Put fmt e now true c i data).2 = None
  /\ (exists d, Get (Put fmt e now true c i data).1 now' c i = Done d
                /\ ID d = i /\ Data d = data)
  /\ (Delete e now true c i).2 = None.
Proof.
  intros Hwf.
  destruct (Put_Get_memtable fmt e now now' c i data Hwf) as (Hp & d & Hg & Hi & Hd & _).
  split_and!; [done | by exists d |].
  by destruct (Delete_Get_falls_through e now now' c i Hwf).
Qed.

Lemma Put_Delete_take_any_strings_witness :
  (Put plain_v (fresh 1024) 0 true "" "" alice).2 = None
  /\ (exists d, Get (Put plain_v (fresh 1024) 0 true "" "" alice).1 1 "" "" = Done d
                /\ ID d = "" /\ Data d = alice)
  /\ (Delete (fresh 1024) 0 true "" "").2 = None.
Proof.
  apply (Put_Delete_take_any_strings plain_v (fresh 1024) 0 1 "" "" alice).
  apply fresh_wf.
Defined.

(** C9 (code defect): the direct comparison [a == b] panics when both
    values have the same dynamic type and that type is a map or a
    slice, so [valuesEqual] does not return false for two nested
    objects: it does not return. *)
Theorem valuesEqual_panics_on_nested_objects :
  valuesEqual address address = Panic
  /\ valuesEqual (VSlice [VString "a"]) (VSlice [VString "b"]) = Panic.
Proof.
  split; reflexivity.
Qed.

(** The integer 30 and the float 30.0 do compare equal. *)
Lemma valuesEqual_int_float :
  valuesEqual (VInt KInt 30) (VFloat64 30) = Done true.
Proof. vm_compute. reflexivity. Qed.

(** C10: deleting a key that no node of the memtable carries returns
    false and gives back the very same memtable, hence the same
    [Count], [Size] and [Get]. *)
Theorem Delete_absent_key_changes_nothing mt k :
  k ∉ List.map Memtable.key (Memtable.nodes mt) ->
  (Memtable.Delete mt k).2 = false
  /\ (Memtable.Delete mt k).1 = mt
  /\ Memtable.Count (Memtable.Delete mt k).1 = Memtable.Count mt
  /\ Memtable.Size (Memtable.Delete mt k).1 = Memtable.Size mt
  /\ forall now k',
       Memtable.Get (Memtable.Delete mt k).1 now k' = Memtable.Get mt now k'.
Proof.
  intros Hk. by rewrite (Delete_absent mt k Hk).
Qed.

Lemma Delete_absent_key_changes_nothing_witness :
  (Memtable.Delete sample_mt "b").2 = false
  /\ (Memtable.Delete sample_mt "b").1 = sample_mt
  /\ Memtable.Count (Memtable.Delete sample_mt "b").1 = Memtable.Count sample_mt
  /\ Memtable.Size (Memtable.Delete sample_mt "b").1 = Memtable.Size sample_mt
  /\ forall now k',
       Memtable.Get (Memtable.Delete sample_mt "b").1 now k'
       = Memtable.Get sample_mt now k'.
Proof.
  apply (Delete_absent_key_changes_nothing sample_mt "b").
  refine (bool_decide_unpack _ _). vm_compute. exact I.
Defined.

End Claims.

(** * Further properties of the code *)

(** ** Memtable *)

(** X1: the memtable is a finite map.  After any sequence of [Put] and
    [Delete] calls on a new memtable, [Get k] returns the value of the
    last [Put] of [k] that no [Delete] of [k] followed, and reports [k]
    absent otherwise. *)
Theorem memtable_is_a_map maxSize r ops now k :
  Memtable.Get (mrun (Memtable.NewMemtable maxSize r) ops) now k
  = foldl mmodel ∅ ops !! k.
Proof.
  rewrite Get_lookup by apply mrun_wf, NewMemtable_wf.
  rewrite <- mt_map_lookup, mrun_map by apply NewMemtable_wf. done.
Qed.

(** X2: [Count] is the number of keys the memtable holds (as an
    [int64]), and below 2^63 keys [IsEmpty] says whether there is none. *)
Theorem memtable_Count_counts_keys maxSize r ops :
  Memtable.Count (mrun (Memtable.NewMemtable maxSize r) ops)
  = wrap64 (Z.of_nat (size (foldl mmodel ∅ ops)))
  /\ (Z.of_nat (size (foldl mmodel ∅ ops)) < 2 ^ 63 ->
      Memtable.IsEmpty (mrun (Memtable.NewMemtable maxSize r) ops)
      = bool_decide (foldl mmodel ∅ ops = ∅)).
Proof.
  pose proof (mrun_wf ops _ (NewMemtable_wf maxSize r)) as Hwf.
  pose proof (mrun_count_ok ops _ (NewMemtable_wf maxSize r) eq_refl) as Hc.
  pose proof (mrun_map ops _ (NewMemtable_wf maxSize r)) as Hm.
  change (mt_map (Memtable.NewMemtable maxSize r)) with (∅ : gmap string iface) in Hm.
  rewrite <- Hm, mt_map_size by apply Hwf.
  unfold Memtable.Count, Memtable.IsEmpty. rewrite Hc. split; [done|].
  intros Hlt. rewrite wrap64_small by lia.
  destruct (decide (mt_map (mrun (Memtable.NewMemtable maxSize r) ops) = ∅)) as [He|Hne].
  - rewrite bool_decide_eq_true_2 by done.
    apply map_size_empty_iff in He. rewrite mt_map_size in He by apply Hwf.
    rewrite He. done.
  - rewrite bool_decide_eq_false_2 by done.
    apply Z.eqb_neq. intros Hz. apply Hne, map_size_empty_iff.
    rewrite mt_map_size by apply Hwf. lia.
Qed.

(** X3: the level of the list is always the greatest height of its
    nodes and stays below [maxLevel], the size of the header and of the
    [update] arrays; no node is higher than the level. *)
Theorem memtable_level_is_greatest_height maxSize r ops :
  let mt := mrun (Memtable.NewMemtable maxSize r) ops in
  Memtable.level mt = max_height (Memtable.nodes mt)
  /\ (Memtable.level mt < Memtable.maxLevel)%nat
  /\ Forall (fun n => (Memtable.height n <= Memtable.level mt)%nat) (Memtable.nodes mt).
Proof.
  intros mt.
  assert (H0 : level_ok (Memtable.NewMemtable maxSize r)).
  { split; simpl; [done|]. unfold Memtable.maxLevel. lia. }
  destruct (mrun_level_ok ops _ (NewMemtable_wf maxSize r) H0) as [Hl Hb].
  fold mt in Hl, Hb. split_and!; [done..|].
  apply Forall_forall. intros n Hn. rewrite Hl. by apply max_height_ge.
Qed.

(** X4: [Range] shows its visitor the entries whose key starts with the
    prefix, each once and in strictly ascending key order. *)
Theorem memtable_Range_ascending maxSize r ops now p :
  let res := Memtable.Range (mrun (Memtable.NewMemtable maxSize r) ops)
               now p record_all [] in
  ascending res
  /\ forall k v, (k, v) ∈ res <->
                 foldl mmodel ∅ ops !! k = Some v /\ HasPrefix k p = true.
Proof.
  intros res.
  pose proof (mrun_wf ops _ (NewMemtable_wf maxSize r)) as Hwf.
  pose proof (mrun_map ops _ (NewMemtable_wf maxSize r)) as Hm.
  change (mt_map (Memtable.NewMemtable maxSize r)) with (∅ : gmap string iface) in Hm.
  unfold res. rewrite Range_record_all by done. split.
  - apply sorted_ascending, sorted_filter, Hwf.
  - intros k v. rewrite <- Hm. unfold mt_map.
    rewrite <- elem_of_list_to_map
      by (rewrite node_kv_keys; apply sorted_keys_NoDup, Hwf).
    rewrite !list_elem_of_fmap. split.
    + intros (n & Hkv & Hn). apply list_elem_of_In, filter_In in Hn as [Hn Hp].
      injection Hkv as -> ->. split; [|done].
      exists n. split; [done|]. by apply list_elem_of_In.
    + intros [(n & Hkv & Hn) Hp]. injection Hkv as -> ->.
      exists n. split; [done|]. apply list_elem_of_In, filter_In.
      split; [by apply list_elem_of_In | done].
Qed.

(** X5: size accounting of [Put].  Writing a key the memtable holds
    replaces the value and leaves [Count], [Size] and the random source
    as they were; writing a new key adds one to [Count] and
    [len(key) + estimateValueSize(value)] to [Size]. *)
Theorem memtable_Put_accounting maxSize r ops k v :
  let mt := mrun (Memtable.NewMemtable maxSize r) ops in
  match foldl mmodel ∅ ops !! k with
  | Some _ =>
      Memtable.Count (Memtable.Put mt k v) = Memtable.Count mt
      /\ Memtable.Size (Memtable.Put mt k v) = Memtable.Size mt
      /\ Memtable.rand (Memtable.Put mt k v) = Memtable.rand mt
  | None =>
      Memtable.Count (Memtable.Put mt k v) = wrap64 (Memtable.Count mt + 1)
      /\ Memtable.Size (Memtable.Put mt k v)
         = wrap64 (Memtable.Size mt + (len k + Memtable.estimateValueSize v))
  end.
Proof.
  intros mt.
  pose proof (mrun_wf ops _ (NewMemtable_wf maxSize r)) as Hwf. fold mt in Hwf.
  pose proof (mrun_map ops _ (NewMemtable_wf maxSize r)) as Hm. fold mt in Hm.
  change (mt_map (Memtable.NewMemtable maxSize r)) with (∅ : gmap string iface) in Hm.
  rewrite <- Hm, mt_map_lookup. unfold mt_lookup.
  destruct (Put_cases mt k v (proj1 Hwf))
    as [(before & c & after & Hn & Hk & Hb & _ & ->) | (before & after & Hn & Hb & Ha & ->)];
    rewrite Hn, find_node_app, find_node_below by done.
  - rewrite <- Hk, find_node_hit. by simpl.
  - rewrite find_node_above by done. simpl. split; [done|].
    unfold Memtable.Size. simpl.
    rewrite (Z.add_comm (Memtable.size mt)), wrap64_add_l. f_equal. lia.
Qed.

(** X6: [Delete] returns true exactly when the memtable held the key;
    it then takes one from [Count] and
    [len(key) + estimateValueSize(value)], for the value held, from
    [Size]. *)
Theorem memtable_Delete_reports_presence maxSize r ops k :
  let mt := mrun (Memtable.NewMemtable maxSize r) ops in
  match foldl mmodel ∅ ops !! k with
  | Some v =>
      (Memtable.Delete mt k).2 = true
      /\ Memtable.Count (Memtable.Delete mt k).1 = wrap64 (Memtable.Count mt - 1)
      /\ Memtable.Size (Memtable.Delete mt k).1
         = wrap64 (Memtable.Size mt - (len k + Memtable.estimateValueSize v))
  | None => (Memtable.Delete mt k).2 = false
  end.
Proof.
  intros mt.
  pose proof (mrun_wf ops _ (NewMemtable_wf maxSize r)) as Hwf. fold mt in Hwf.
  pose proof (mrun_map ops _ (NewMemtable_wf maxSize r)) as Hm. fold mt in Hm.
  change (mt_map (Memtable.NewMemtable maxSize r)) with (∅ : gmap string iface) in Hm.
  rewrite <- Hm, mt_map_lookup. unfold mt_lookup.
  destruct (Delete_cases mt k (proj1 Hwf))
    as [(before & c & after & Hn & Hk & Hb & _ & ->) | [-> ->]]; [|done].
  rewrite Hn, find_node_app, find_node_below by done.
  rewrite <- Hk, find_node_hit. simpl. split_and!; [done..|].
  unfold Memtable.Size. simpl. apply wrap64_sub_r.
Qed.

(** ** B-tree *)

(** X7: the tree is a finite map.  After any sequence of [Put] and
    [Delete] calls on a new tree (none of which panics), [Get k] returns
    the value of the last [Put] of [k] that no [Delete] of [k] followed,
    and the error "key not found" otherwise. *)
Theorem btree_is_a_map ops k :
  exists bt,
    trun BTree.NewBTree ops = Done bt
    /\ BTree.Get bt k = match foldl tmodel ∅ ops !! k with
                        | Some v => Done v
                        | None => Fail ErrKeyNotFound
                        end.
Proof.
  destruct (trun_holds ops _ _ holds_map_new) as (bt & Hrun & r & Hr & Hso & _ & Hl).
  exists bt. split; [done|].
  rewrite Get_spec by (unfold tree_sorted; by rewrite Hr).
  unfold tree_lookup. rewrite Hr. simpl. by rewrite Hl.
Qed.

(** X8: [Delete] returns nil when the tree holds the key and the error
    "key not found" when it does not; in the second case the tree is
    left exactly as it was, and in both the other keys keep their
    values. *)
Theorem btree_Delete_result ops k :
  exists bt bt',
    trun BTree.NewBTree ops = Done bt
    /\ BTree.Delete bt k =
         Done (bt', match foldl tmodel ∅ ops !! k with
                    | Some _ => None
                    | None => Some ErrKeyNotFound
                    end)
    /\ (foldl tmodel ∅ ops !! k = None -> bt' = bt)
    /\ BTree.Get bt' k = Fail ErrKeyNotFound
    /\ forall k', k' <> k -> BTree.Get bt' k' = BTree.Get bt k'.
Proof.
  destruct (trun_holds ops _ _ holds_map_new) as (bt & Hrun & Hbt).
  destruct (holds_map_Delete bt _ k Hbt) as (bt' & Hd & Hbt' & Hsame).
  exists bt, bt'. split_and!; [done..| |].
  - destruct Hbt' as (r & Hr & Hso & _ & Hl).
    rewrite Get_spec by (unfold tree_sorted; by rewrite Hr).
    unfold tree_lookup. rewrite Hr. simpl. by rewrite Hl, lookup_delete_eq.
  - intros k' Hne.
    destruct Hbt as (r & Hr & Hso & _ & Hl). destruct Hbt' as (r' & Hr' & Hso' & _ & Hl').
    rewrite !Get_spec by (unfold tree_sorted; by rewrite ?Hr, ?Hr').
    unfold tree_lookup. rewrite Hr, Hr'. simpl.
    by rewrite Hl, Hl', lookup_delete_ne.
Qed.

(** X9: [Put] and [Delete] never create an internal node.  After any
    history the root is a leaf without children whose keys are strictly
    ascending, one per key of the map, each with its value. *)
Theorem btree_root_stays_a_leaf ops :
  exists bt r,
    trun BTree.NewBTree ops = Done bt
    /\ BTree.root bt = Some r
    /\ BTree.IsLeaf r = true /\ BTree.Children r = []
    /\ keys_sorted (BTree.Keys r)
    /\ length (BTree.Values r) = length (BTree.Keys r)
    /\ length (BTree.Keys r) = size (foldl tmodel ∅ ops).
Proof.
  destruct (trun_holds ops _ _ holds_map_new) as (bt & Hrun & Hbt).
  pose proof Hbt as (r & Hr & [[Hleaf Hlen] Hso] & Hc & Hl).
  exists bt, r. split_and!; [done..|].
  rewrite (holds_map_eq bt _ r Hbt Hr), map_size_list_to_map.
  - rewrite length_zip_with. lia.
  - rewrite fst_zip by lia. by apply keys_sorted_NoDup.
Qed.

(** X10: [Range p] returns the values of exactly the keys that start
    with [p], each key once, in strictly ascending key order. *)
Theorem btree_Range_exact ops p :
  exists bt kvs,
    trun BTree.NewBTree ops = Done bt
    /\ BTree.Range bt p = Done (List.map snd kvs)
    /\ ascending kvs
    /\ forall k v, (k, v) ∈ kvs <->
                   foldl tmodel ∅ ops !! k = Some v /\ HasPrefix k p = true.
Proof.
  destruct (trun_holds ops _ _ holds_map_new) as (bt & Hrun & Hbt).
  pose proof Hbt as (r & Hr & [[Hleaf Hlen] Hso] & Hc & Hl).
  exists bt, (List.filter (fun kv => HasPrefix kv.1 p) (zip (BTree.Keys r) (BTree.Values r))).
  split_and!; [done | | |].
  - by rewrite (Range_leaf bt p r Hr).
  - by apply ascending_filter, ascending_zip.
  - intros k v. rewrite (holds_map_eq bt _ r Hbt Hr).
    rewrite <- elem_of_list_to_map
      by (rewrite fst_zip by lia; by apply keys_sorted_NoDup).
    rewrite list_elem_of_In, filter_In, <- list_elem_of_In. done.
Qed.

(** ** Secondary index *)

(** X11: an index is a relation between field values and document ids.
    After any sequence of [Put] and [Delete] calls on a new index,
    [Get value] lists [docID] exactly when some [Put value docID] was
    followed by no [Delete docID]. *)
Theorem index_is_a_relation (field : string) (ops : list IOp) (value docID : string) :
  docID ∈ Index.Get (irun (Index.NewIndex field) ops) value <->
  (value, docID) ∈ foldl imodel ∅ ops.
Proof.
  apply (irun_pairs ops (Index.NewIndex field) ∅ (NewIndex_ok field)).
  intros v id. unfold pairs, Index.Get, Index.NewIndex. simpl.
  rewrite lookup_empty. split; [by intros ?%not_elem_of_nil | by intros ?%not_elem_of_empty].
Qed.

(** X12: no bucket of an index lists a document twice, [Delete] leaves
    no empty bucket behind, and so [Size] is the number of values that
    some document still has. *)
Theorem index_buckets_distinct_and_counted (field : string) (ops : list IOp) :
  let ix := irun (Index.NewIndex field) ops in
  (forall value, NoDup (Index.Get ix value)) /\
  (forall value, Index.entries ix !! value <> Some []) /\
  Index.Size ix = size (set_map (D := gset string) fst (foldl imodel ∅ ops)).
Proof.
  intros ix.
  assert (Hok : index_ok ix) by apply irun_ok, NewIndex_ok.
  split_and!.
  - intros v. by apply Get_NoDup.
  - intros v E. by destruct (Hok _ _ E).
  - apply Size_values; [done|].
    apply (irun_pairs ops (Index.NewIndex field) ∅ (NewIndex_ok field)).
    intros v id. unfold pairs, Index.Get, Index.NewIndex. simpl.
    rewrite lookup_empty. split; [by intros ?%not_elem_of_nil | by intros ?%not_elem_of_empty].
Qed.

(** ** Engine *)

Section EngineHistories.
Import Engine.
Variable fmt : Value -> string.

Lemma updateIndexes_lookup ixs c i doc key :
  updateIndexes fmt ixs c i doc !! key =
  (fun index =>
     if index_of_collection key c then
       match Data doc !! slice_from key (String.length c + 1) with
       | Some value => Index.Put index (fmt value) i
       | None => index
       end
     else index) <$> ixs !! key.
Proof.
  unfold updateIndexes. rewrite map_lookup_imap.
  by destruct (ixs !! key).
Qed.

Lemma removeFromIndexes_lookup ixs c i key :
  removeFromIndexes ixs c i !! key =
  (fun index => if index_of_collection key c then Index.Delete index i else index)
    <$> ixs !! key.
Proof.
  unfold removeFromIndexes. rewrite map_lookup_imap.
  by destruct (ixs !! key).
Qed.

Lemma index_doc_ok f v ix : index_ok ix -> index_ok (index_doc fmt f v ix).
Proof.
  intros Hok. unfold index_doc. destruct v as [d|]; [|done].
  destruct (Data d !! f); [|done]. by apply Put_index_ok.
Qed.

Lemma buildIndex_ok e now c f ix ix' :
  mt_wf (memtable e) -> index_ok ix ->
  buildIndex fmt e now c f ix = Done ix' -> index_ok ix'.
Proof.
  intros [_ Httl] Hok. unfold buildIndex, Memtable.Range.
  rewrite (range_loop_all now _ (fun _ v s => index_doc fmt f v s)) by done.
  destruct (BTree.Range (btree e) (c +:+ ":")) as [vs| |]; simpl; [|done..].
  intros [= <-].
  assert (Hfold : forall (l : list iface) s, index_ok s ->
            index_ok (foldl (fun ix value => index_doc fmt f value ix) s l)).
  { induction l as [|v l IH]; intros s Hs; simpl; [done|]. by apply IH, index_doc_ok. }
  apply Hfold.
  set (l := List.filter _ _). clearbody l. revert ix Hok.
  induction l as [|n l IH]; intros s Hs; simpl; [done|]. by apply IH, index_doc_ok.
Qed.

Lemma Put_inv e now ok c i data :
  engine_inv e -> engine_inv (Put fmt e now ok c i data).1.
Proof.
  intros (Hwf & Htd & Hix). split; [by apply Put_engine_wf|].
  unfold Put, WAL.WriteEntry. destruct ok; simpl; [|done].
  split; [done|]. intros key ix. simpl. rewrite updateIndexes_lookup.
  destruct (indexes e !! key) as [ix0|] eqn:E; simpl; [|done].
  intros [= <-]. specialize (Hix _ _ E).
  destruct (index_of_collection key c); [|done].
  destruct (_ !! slice_from key _); [|done]. by apply Put_index_ok.
Qed.

Lemma Delete_inv e now ok c i :
  engine_inv e -> engine_inv (Delete e now ok c i).1.
Proof.
  intros (Hwf & Htd & Hix). split; [by apply Delete_engine_wf|].
  unfold Delete, WAL.WriteEntry. destruct ok; simpl; [|done].
  destruct (Memtable.Delete (memtable e) (doc_key c i)) as [mt b]. simpl.
  split; [done|]. intros key ix. simpl. rewrite removeFromIndexes_lookup.
  destruct (indexes e !! key) as [ix0|] eqn:E; simpl; [|done].
  intros [= <-]. specialize (Hix _ _ E).
  destruct (index_of_collection key c); [|done]. by apply Delete_index_ok.
Qed.

(** What [flushMemtable] leaves. *)
Lemma flushMemtable_frame e now r :
  engine_wf e ->
  exists e',
    flushMemtable e now r = Done e' /\ engine_wf e'
    /\ (forall k, stored e' k = stored e k)
    /\ indexes e' = indexes e /\ wal e' = wal e
    /\ (e' = e \/ Memtable.nodes (memtable e') = []).
Proof.
  intros Hwf. destruct (flushMemtable_spec e now r Hwf) as (e' & He & Hwf' & Hst).
  exists e'. split_and!; try done.
  - unfold flushMemtable in He. destruct (Memtable.IsEmpty _); [by injection He as <-|].
    destruct (Memtable.Range _ _ _ _ _) as [bt| |]; simpl in He; [|done..].
    by injection He as <-.
  - unfold flushMemtable in He. destruct (Memtable.IsEmpty _); [by injection He as <-|].
    destruct (Memtable.Range _ _ _ _ _) as [bt| |]; simpl in He; [|done..].
    by injection He as <-.
  - unfold flushMemtable in He. destruct (Memtable.IsEmpty _); [left; by injection He as <-|].
    destruct (Memtable.Range _ _ _ _ _) as [bt| |]; simpl in He; [|done..].
    right. by injection He as <-.
Qed.

Lemma stored_docs e k v :
  docs_only (memtable e) -> tree_docs (btree e) ->
  stored e k = Some v -> exists d, v = IDoc d.
Proof.
  intros Hdocs Htd. unfold stored, mt_lookup.
  destruct (find_node k _) as [n|] eqn:En; simpl.
  - intros [= <-]. apply find_some in En as [Hin _]. apply list_elem_of_In in Hin.
    by apply (proj1 (Forall_forall _ _) Hdocs) in Hin.
  - apply Htd.
Qed.

Lemma flushMemtable_inv e now r :
  engine_inv e ->
  exists e',
    flushMemtable e now r = Done e' /\ engine_inv e'
    /\ (forall k, stored e' k = stored e k)
    /\ indexes e' = indexes e /\ wal e' = wal e.
Proof.
  intros (Hwf & Htd & Hix).
  destruct (flushMemtable_frame e now r Hwf) as (e' & He & Hwf' & Hst & Hi & Hw & Hcase).
  assert (Htd' : tree_docs (btree e')).
  { destruct Hcase as [->|Hnil]; [done|].
    intros k v Hk. apply (stored_docs e k); [apply Hwf | done |].
    rewrite <- Hst. unfold stored, mt_lookup. by rewrite Hnil. }
  assert (Hix' : indexes_ok e').
  { intros key ix. rewrite Hi. apply Hix. }
  exists e'. split; [done|]. split; [by split|]. by split_and!.
Qed.

Lemma run_flush_inv e now r :
  engine_inv e ->
  exists e',
    run_flush e now r = Done e' /\ engine_inv e'
    /\ (forall k, stored e' k = stored e k)
    /\ indexes e' = indexes e /\ wal e' = wal e.
Proof.
  intros Hinv. unfold run_flush. destruct (flushes e) as [|n].
  { exists e. by split_and!. }
  apply (flushMemtable_inv
           (mkEngine (MemtableSize e) (memtable e) (wal e) (btree e)
                     (indexes e) (compacting e) n)).
  destruct Hinv as ((? & ? & ?) & ? & ?). by split_and!.
Qed.

Lemma CreateIndex_inv e now c f :
  engine_inv e ->
  CreateIndex fmt e now c f = Fail ErrIndexExists
  \/ exists e', CreateIndex fmt e now c f = Done e' /\ engine_inv e'
       /\ memtable e' = memtable e /\ btree e' = btree e /\ wal e' = wal e.
Proof.
  intros (Hwf & Htd & Hix).
  destruct (CreateIndex_wf fmt e now c f Hwf) as [?|(e' & He & Hwf')]; [by left|].
  right. exists e'. pose proof He as He0. unfold CreateIndex in He.
  destruct (indexes e !! _) eqn:E; [done|].
  destruct (buildIndex fmt e now c f (Index.NewIndex f)) as [ix| |] eqn:Eb; simpl in He; [|done..].
  injection He as <-. simpl. split; [exact He0|]. split; [|done].
  split; [done|]. split; [done|].
  intros key ix'. simpl. destruct (decide (key = c +:+ "." +:+ f)) as [->|Hne].
  - rewrite lookup_insert_eq. intros [= <-].
    eapply buildIndex_ok; [apply Hwf | apply NewIndex_ok | exact Eb].
  - rewrite lookup_insert_ne by done. apply Hix.
Qed.

Lemma exec_inv e op :
  engine_inv e -> exists e', exec fmt e op = Done e' /\ engine_inv e'.
Proof.
  intros Hinv. destruct op as [now ok c i data|now ok c i|now c f|now r]; simpl.
  - eexists. split; [done|]. by apply Put_inv.
  - eexists. split; [done|]. by apply Delete_inv.
  - destruct (CreateIndex_inv e now c f Hinv) as [->|(e' & -> & Hinv' & _)]; eauto.
  - destruct (run_flush_inv e now r Hinv) as (e' & -> & Hinv' & _). eauto.
Qed.

Lemma run_inv ops : forall e,
  engine_inv e -> exists e', run fmt e ops = Done e' /\ engine_inv e'.
Proof.
  induction ops as [|op ops IH]; intros e Hinv; simpl; [eauto|].
  destruct (exec_inv e op Hinv) as (e1 & -> & Hinv1). simpl. by apply IH.
Qed.

Lemma boot_inv threshold walFile r : engine_inv (boot threshold walFile r).
Proof.
  split_and!.
  - apply NewEngine_wf, NewBTree_sorted.
  - intros k v. unfold boot, NewEngine, recover. simpl. done.
  - intros key ix. unfold boot, NewEngine, recover. simpl. by rewrite lookup_empty.
Qed.

Lemma history_inv threshold walFile r ops :
  exists e, run fmt (boot threshold walFile r) ops = Done e /\ engine_inv e.
Proof. apply run_inv, boot_inv. Qed.

(** *** What a scan sees *)

Lemma scanned_elem mt p v :
  mt_wf mt ->
  v ∈ scanned mt p <-> exists k, HasPrefix k p = true /\ mt_lookup mt k = Some v.
Proof.
  intros Hwf. unfold scanned. rewrite list_elem_of_In, in_map_iff. split.
  - intros (n & <- & Hn). apply filter_In in Hn as [Hn Hp].
    exists (Memtable.key n). split; [done|].
    rewrite <- mt_map_lookup. unfold mt_map.
    apply elem_of_list_to_map; [rewrite node_kv_keys; apply sorted_keys_NoDup, Hwf|].
    apply list_elem_of_fmap. exists n. split; [done|]. by apply list_elem_of_In.
  - intros (k & Hp & Hk). rewrite <- mt_map_lookup in Hk. unfold mt_map in Hk.
    apply elem_of_list_to_map in Hk;
      [|rewrite node_kv_keys; apply sorted_keys_NoDup, Hwf].
    apply list_elem_of_fmap in Hk as (n & Hkv & Hn). injection Hkv as -> ->.
    exists n. split; [done|]. apply filter_In. split; [by apply list_elem_of_In | done].
Qed.

Lemma prefixed_leaf r p v :
  leaf_sorted r ->
  v ∈ prefixed p (BTree.Keys r) (BTree.Values r)
  <-> exists k, HasPrefix k p = true /\ leaf_lookup k r = Some v.
Proof.
  intros [[Hleaf Hlen] Hso]. unfold prefixed, leaf_lookup.
  rewrite list_elem_of_In, in_map_iff. split.
  - intros ([k v'] & <- & Hin). apply filter_In in Hin as [Hin Hp]. simpl in *.
    exists k. split; [done|]. rewrite <- find_kv_to_map.
    apply elem_of_list_to_map; [rewrite fst_zip by lia; by apply keys_sorted_NoDup|].
    by apply list_elem_of_In.
  - intros (k & Hp & Hk). rewrite <- find_kv_to_map in Hk.
    apply elem_of_list_to_map in Hk;
      [|rewrite fst_zip by lia; by apply keys_sorted_NoDup].
    exists (k, v). split; [done|]. apply filter_In. split; [by apply list_elem_of_In | done].
Qed.

Lemma Range_tree bt p :
  tree_sorted bt ->
  exists vs, BTree.Range bt p = Done vs
    /\ forall v, v ∈ vs <-> exists k, HasPrefix k p = true /\ tree_lookup k bt = Some v.
Proof.
  unfold tree_sorted, tree_lookup. destruct (BTree.root bt) as [r|] eqn:Hr; intros Hso.
  - rewrite (Range_leaf bt p r Hr) by (by apply leaf_sorted_ok).
    eexists. split; [done|]. intros v. simpl. by apply prefixed_leaf.
  - unfold BTree.Range. rewrite Hr. simpl. eexists. split; [done|].
    intros v. simpl. split; [by intros ?%not_elem_of_nil | by intros (k & _ & ?)].
Qed.

Lemma matching_iff f vs d :
  d ∈ matching f vs <-> IDoc d ∈ vs /\ matchesFilter d f = Done true.
Proof.
  unfold matching. rewrite list_elem_of_omap. split.
  - intros (v & Hv & Hd). destruct v as [d'|]; [|done].
    destruct (matchesFilter d' f) as [[]| |] eqn:Em; try done.
    injection Hd as ->. done.
  - intros [Hv Hm]. exists (IDoc d). split; [done|]. by rewrite Hm.
Qed.

End EngineHistories.

(** X13: after any history of calls, [Get] returns a document or the
    error "key not found".  It does not panic, and the error "document
    not found" of its type assertions is never returned: the memtable
    and the B-tree hold nothing but documents. *)
Theorem engine_Get_document_or_absent fmt threshold walFile r ops now c i :
  exists e,
    Engine.run fmt (boot threshold walFile r) ops = Done e
    /\ (Engine.Get e now c i = Fail ErrKeyNotFound
        \/ exists d, Engine.Get e now c i = Done d).
Proof.
  destruct (history_inv fmt threshold walFile r ops) as (e & Hrun & Hwf & Htd & _).
  exists e. split; [done|]. rewrite Get_stored by done.
  destruct (stored e (Engine.doc_key c i)) as [v|] eqn:E; [|by left].
  destruct (stored_docs e _ v (proj1 (proj2 Hwf)) Htd E) as [d ->]. right. eauto.
Qed.


(** X15: [flushMemtable] returns, and changes nothing [Get] can see:
    every key answers after the flush as it did before.  The indexes
    and the log are left as they were. *)
Theorem engine_flush_keeps_every_document fmt threshold walFile r ops now r' :
  exists e e',
    Engine.run fmt (boot threshold walFile r) ops = Done e
    /\ Engine.flushMemtable e now r' = Done e'
    /\ (forall now' c i, Engine.Get e' now' c i = Engine.Get e now' c i)
    /\ Engine.indexes e' = Engine.indexes e
    /\ Engine.wal e' = Engine.wal e.
Proof.
  destruct (history_inv fmt threshold walFile r ops) as (e & Hrun & Hinv).
  destruct (flushMemtable_inv e now r' Hinv) as (e' & He & Hinv' & Hst & Hi & Hw).
  exists e, e'. split_and!; try done.
  intros now' c i. rewrite !Get_stored by (apply Hinv || apply Hinv').
  by rewrite Hst.
Qed.

Lemma exec_written fmt e op k m :
  engine_inv e -> is_delete op = false ->
  match m with
  | Some data => exists d, stored e k = Some (IDoc d) /\ Data d = data
  | None => True
  end ->
  exists e1,
    Engine.exec fmt e op = Done e1 /\ engine_inv e1
    /\ match written k m op with
       | Some data => exists d, stored e1 k = Some (IDoc d) /\ Data d = data
       | None => stored e1 k = stored e k
       end.
Proof.
  intros Hinv Hnd Hm.
  assert (Hkeep : forall e1, stored e1 k = stored e k ->
            match m with
            | Some data => exists d, stored e1 k = Some (IDoc d) /\ Data d = data
            | None => stored e1 k = stored e k
            end).
  { intros e1 H1. destruct m; [by rewrite H1 | done]. }
  destruct op as [now ok c i data|now ok c i|now c f|now r]; simpl; [| done | |].
  - eexists. split; [done|]. split; [by apply Put_inv|].
    destruct ok; [|by apply Hkeep].
    destruct (stored_Put fmt e now c i data k (proj1 Hinv)) as (d & _ & Hd & _ & Hs).
    destruct (decide (Engine.doc_key c i = k)) as [<-|Hne].
    + rewrite decide_True in Hs by done. eauto.
    + rewrite decide_False in Hs by done. by apply Hkeep.
  - destruct (CreateIndex_inv fmt e now c f Hinv) as [->|(e' & -> & Hinv' & Hmt & Hbt & _)].
    + exists e. split_and!; [done..|]. by apply Hkeep.
    + exists e'. split_and!; [done..|]. apply Hkeep. unfold stored. by rewrite Hmt, Hbt.
  - destruct (run_flush_inv e now r Hinv) as (e' & -> & Hinv' & Hst & _).
    exists e'. split_and!; [done..|]. by apply Hkeep.
Qed.

Lemma run_written fmt ops : forall e e0 k m,
  engine_inv e -> forallb (fun op => negb (is_delete op)) ops = true ->
  match m with
  | Some data => exists d, stored e k = Some (IDoc d) /\ Data d = data
  | None => stored e k = stored e0 k
  end ->
  exists e',
    Engine.run fmt e ops = Done e' /\ engine_inv e'
    /\ match foldl (written k) m ops with
       | Some data => exists d, stored e' k = Some (IDoc d) /\ Data d = data
       | None => stored e' k = stored e0 k
       end.
Proof.
  induction ops as [|op ops IH]; intros e e0 k m Hinv Hnd Hm; simpl.
  { exists e. by split_and!. }
  simpl in Hnd. apply andb_true_iff in Hnd as [Hop Hnd]. apply negb_true_iff in Hop.
  destruct (exec_written fmt e op k m Hinv Hop) as (e1 & -> & Hinv1 & H1).
  { destruct m; [done | exact I]. }
  simpl. apply IH; [done..|].
  destruct (written k m op) eqn:Ew; [done|].
  assert (m = None) as ->.
  { destruct op as [? [] ? ? ?| | |]; simpl in Ew; try done. by destruct (decide _). }
  by rewrite H1.
Qed.

(** X16: as long as nothing is deleted the engine is a map from keys
    to data.  After further calls of [Put], [CreateIndex] and flushes,
    [Get] returns the data of the last successful [Put] under the key,
    and what it returned before when there was none. *)
Theorem engine_latest_Put_wins fmt threshold walFile r ops0 ops now c i :
  exists e,
    Engine.run fmt (boot threshold walFile r) ops0 = Done e
    /\ (forallb (fun op => negb (is_delete op)) ops = true ->
        exists e',
          Engine.run fmt e ops = Done e'
          /\ match foldl (written (Engine.doc_key c i)) None ops with
             | Some data => exists d, Engine.Get e' now c i = Done d /\ Data d = data
             | None => Engine.Get e' now c i = Engine.Get e now c i
             end).
Proof.
  destruct (history_inv fmt threshold walFile r ops0) as (e & Hrun & Hinv).
  exists e. split; [done|]. intros Hnd.
  destruct (run_written fmt ops e e (Engine.doc_key c i) None Hinv Hnd eq_refl)
    as (e' & Hrun' & Hinv' & Hw).
  exists e'. split; [done|].
  rewrite !Get_stored by (apply Hinv || apply Hinv').
  destruct (foldl _ None ops) as [data|].
  - destruct Hw as (d & -> & Hd). eauto.
  - by rewrite Hw.
Qed.

(** X17: [Delete] removes the key from the memtable only.  A [Get] that
    follows returns what the B-tree holds under the key, and "key not
    found" when it holds nothing. *)
Theorem engine_Delete_uncovers_tree fmt threshold walFile r ops now now' c i :
  exists e,
    Engine.run fmt (boot threshold walFile r) ops = Done e
    /\ (Engine.Delete e now true c i).2 = None
    /\ Engine.Get (Engine.Delete e now true c i).1 now' c i
       = match BTree.Get (Engine.btree e) (Engine.doc_key c i) with
         | Done (IDoc d) => Done d
         | _ => Fail ErrKeyNotFound
         end.
Proof.
  destruct (history_inv fmt threshold walFile r ops) as (e & Hrun & Hwf & Htd & _).
  exists e. split; [done|].
  destruct (Delete_Get_falls_through e now now' c i Hwf) as [H1 H2].
  split; [done|]. rewrite H2, Get_spec by apply Hwf.
  destruct (tree_lookup _ _) as [v|] eqn:E; [|done].
  by destruct (Htd _ _ E) as [d ->].
Qed.

(** X18: [Put] and [Delete] leave every other key alone, whether the
    write to the log succeeds or not. *)
Theorem engine_other_keys_untouched fmt threshold walFile r ops
    now ok c i data now' c' i' :
  exists e,
    Engine.run fmt (boot threshold walFile r) ops = Done e
    /\ (Engine.doc_key c' i' <> Engine.doc_key c i ->
        Engine.Get (Engine.Put fmt e now ok c i data).1 now' c' i'
        = Engine.Get e now' c' i'
        /\ Engine.Get (Engine.Delete e now ok c i).1 now' c' i'
           = Engine.Get e now' c' i').
Proof.
  destruct (history_inv fmt threshold walFile r ops) as (e & Hrun & Hwf & _).
  exists e. split; [done|]. intros Hne. destruct ok.
  - rewrite !Get_stored by (done || by apply Put_engine_wf || by apply Delete_engine_wf).
    destruct (stored_Put fmt e now c i data (Engine.doc_key c' i') Hwf) as (d & _ & _ & _ & ->).
    rewrite stored_Delete by done. by rewrite !decide_False.
  - done.
Qed.

Lemma Query_unfold e now c f :
  mt_wf (Engine.memtable e) ->
  Engine.Query e now c f
  = (results ← Engine.collect_all f (scanned (Engine.memtable e) (c +:+ ":")) [];
     diskResults ← BTree.Range (Engine.btree e) (c +:+ ":");
     Engine.collect_all f diskResults results).
Proof.
  intros [_ Httl]. unfold Engine.Query, Memtable.Range.
  rewrite (range_loop_all now (c +:+ ":")
             (fun _ value (acc : outcome (list Document)) =>
                results ← acc; Engine.collect f value results)) by done.
  rewrite (foldl_map_value
             (fun value (acc : outcome (list Document)) =>
                results ← acc; Engine.collect f value results)).
  rewrite collect_fold. done.
Qed.

Lemma valuesEqual_scalar a b : scalar b = true -> exists r, valuesEqual a b = Done r.
Proof.
  intros Hb. rewrite valuesEqual_matches_spec; [eauto|].
  by destruct a, b.
Qed.

Lemma matches_loop_scalar data l :
  Forall (fun kv => scalar kv.2 = true) l ->
  exists b, Engine.matches_loop data l = Done b.
Proof.
  induction 1 as [|[k v] l Hv _ IH]; simpl; [eauto|].
  destruct (data !! k) as [dv|]; [|eauto].
  destruct (valuesEqual_scalar dv v Hv) as [[] ->]; simpl; eauto.
Qed.

Lemma collect_all_scalar f vs :
  map_Forall (fun _ v => scalar v = true) f ->
  forall acc, exists res, Engine.collect_all f vs acc = Done res.
Proof.
  intros Hf. assert (Hl : Forall (fun kv => scalar kv.2 = true) (map_to_list f)).
  { apply map_Forall_to_list in Hf. eapply Forall_impl; [exact Hf|]. by intros [k v]. }
  induction vs as [|v vs IH]; intros acc; simpl; [eauto|].
  destruct v as [d|x]; simpl; [|apply IH].
  unfold Engine.matchesFilter.
  destruct (matches_loop_scalar (Data d) _ Hl) as [b ->]. simpl. apply IH.
Qed.

(** X19: when [Query] returns, its result holds exactly the documents
    that the memtable or the B-tree holds under a key starting with the
    collection name and a colon, and that satisfy the filter. *)
Theorem engine_Query_exact fmt threshold walFile r ops now c f :
  exists e,
    Engine.run fmt (boot threshold walFile r) ops = Done e
    /\ forall res,
         Engine.Query e now c f = Done res ->
         forall d, d ∈ res <->
                   holds_under e (c +:+ ":") d /\ Engine.matchesFilter d f = Done true.
Proof.
  destruct (history_inv fmt threshold walFile r ops) as (e & Hrun & (Hmt & _ & Hbt) & _).
  exists e. split; [done|]. intros res Hq d.
  destruct (Query_concat e now c f res Hmt Hq) as (disk & Hdisk & ->).
  destruct (Range_tree (Engine.btree e) (c +:+ ":") Hbt) as (vs & Hvs & Hin).
  rewrite Hvs in Hdisk. injection Hdisk as <-.
  rewrite elem_of_app, !matching_iff, scanned_elem, Hin by done.
  unfold holds_under. split.
  - intros [[(k & Hp & Hk) Hm] | [(k & Hp & Hk) Hm]]; (split; [|done]); exists k; eauto.
  - intros [(k & Hp & [Hk|Hk]) Hm]; [left | right]; (split; [|done]); exists k; eauto.
Qed.

(** X20: [Query] returns whenever no value of the filter is a byte
    slice, a slice or a map. *)
Theorem engine_Query_returns_on_scalar_filter fmt threshold walFile r ops now c f :
  exists e,
    Engine.run fmt (boot threshold walFile r) ops = Done e
    /\ (map_Forall (fun _ v => scalar v = true) f ->
        exists res, Engine.Query e now c f = Done res).
Proof.
  destruct (history_inv fmt threshold walFile r ops) as (e & Hrun & (Hmt & _ & Hbt) & _).
  exists e. split; [done|]. intros Hf. rewrite Query_unfold by done.
  destruct (collect_all_scalar f (scanned (Engine.memtable e) (c +:+ ":")) Hf [])
    as [r1 ->]. simpl.
  destruct (Range_tree (Engine.btree e) (c +:+ ":") Hbt) as (vs & -> & _). simpl.
  apply collect_all_scalar, Hf.
Qed.

Lemma index_doc_pairs fmt f l : forall ix v id,
  pairs (foldl (fun ix value => Engine.index_doc fmt f value ix) ix l) v id
  <-> pairs ix v id
      \/ exists d fv, IDoc d ∈ l /\ ID d = id /\ Data d !! f = Some fv /\ fmt fv = v.
Proof.
  induction l as [|x l IH]; intros ix v id; simpl.
  - split; [by left|]. intros [?|(d & fv & ?%not_elem_of_nil & _)]; done.
  - rewrite IH. split.
    + intros [Hp|(d & fv & Hin & Hrest)].
      * unfold Engine.index_doc in Hp. destruct x as [d|]; [|by left].
        destruct (Data d !! f) as [fv|] eqn:Ef; [|by left].
        apply pairs_Put in Hp as [[-> ->]|Hp]; [|by left].
        right. exists d, fv. split_and!; [by left|done..].
      * right. exists d, fv. split; [by right|done].
    + intros [Hp|(d & fv & Hin & Hid & Hf & Hv)].
      * left. unfold Engine.index_doc. destruct x as [d|]; [|done].
        destruct (Data d !! f); [|done]. apply pairs_Put. by right.
      * apply elem_of_cons in Hin as [<-|Hin].
        -- left. simpl. rewrite Hf. apply pairs_Put. left. by split.
        -- right. exists d, fv. by split_and!.
Qed.

Lemma buildIndex_pairs fmt e now c f ix :
  engine_wf e ->
  exists ix',
    Engine.buildIndex fmt e now c f ix = Done ix'
    /\ forall v id,
         pairs ix' v id
         <-> pairs ix v id
             \/ exists d fv, holds_under e (c +:+ ":") d
                  /\ ID d = id /\ Data d !! f = Some fv /\ fmt fv = v.
Proof.
  intros (Hmt & _ & Hbt). unfold Engine.buildIndex, Memtable.Range.
  rewrite (range_loop_all now _ (fun _ v s => Engine.index_doc fmt f v s)) by apply Hmt.
  rewrite (foldl_map_value (fun value ix => Engine.index_doc fmt f value ix)).
  fold (scanned (Engine.memtable e) (c +:+ ":")).
  destruct (Range_tree (Engine.btree e) (c +:+ ":") Hbt) as (vs & -> & Hin). simpl.
  eexists. split; [done|]. intros v id. rewrite !index_doc_pairs. unfold holds_under.
  split.
  - intros [[Hp|(d & fv & Hd & Hrest)]|(d & fv & Hd & Hrest)]; [by left| |].
    + right. exists d, fv. split; [|done].
      apply scanned_elem in Hd as (k & Hk & Hl); [|done]. eauto.
    + right. exists d, fv. split; [|done].
      apply Hin in Hd as (k & Hk & Hl). eauto.
  - intros [Hp|(d & fv & (k & Hk & [Hl|Hl]) & Hrest)]; [by left; left| |].
    + left. right. exists d, fv. split; [|done]. apply scanned_elem; eauto.
    + right. exists d, fv. split; [|done]. apply Hin; eauto.
Qed.

(** X21: [CreateIndex] on a field that has an index returns the error
    "index exists".  Otherwise it returns, leaves every document as it
    was, and registers an index that lists an id under a value exactly
    when a stored document of the collection has that id and that value
    (as formatted) in the field. *)
Theorem engine_CreateIndex_indexes_what_is_stored fmt threshold walFile r ops now c f :
  exists e,
    Engine.run fmt (boot threshold walFile r) ops = Done e
    /\ match Engine.indexes e !! (c +:+ "." +:+ f) with
       | Some _ => Engine.CreateIndex fmt e now c f = Fail ErrIndexExists
       | None =>
           exists e' ix,
             Engine.CreateIndex fmt e now c f = Done e'
             /\ Engine.indexes e' = <[c +:+ "." +:+ f := ix]> (Engine.indexes e)
             /\ (forall now' c' i', Engine.Get e' now' c' i' = Engine.Get e now' c' i')
             /\ forall v id,
                  id ∈ Index.Get ix v
                  <-> exists d fv, holds_under e (c +:+ ":") d
                        /\ ID d = id /\ Data d !! f = Some fv /\ fmt fv = v
       end.
Proof.
  destruct (history_inv fmt threshold walFile r ops) as (e & Hrun & Hwf & _).
  exists e. split; [done|]. unfold Engine.CreateIndex.
  destruct (Engine.indexes e !! _) eqn:E; [done|].
  destruct (buildIndex_pairs fmt e now c f (Index.NewIndex f) Hwf) as (ix & -> & Hp).
  simpl. eexists _, ix. split_and!; [done..|].
  intros v id. fold (pairs ix v id). rewrite Hp. split; [|by right].
  intros [Hn|?]; [|done]. unfold pairs, Index.Get, Index.NewIndex in Hn. simpl in Hn.
  rewrite lookup_empty in Hn. by apply not_elem_of_nil in Hn.
Qed.

Lemma slice_from_append p s : slice_from (p +:+ s) (String.length p) = s.
Proof.
  unfold slice_from. rewrite length_append.
  replace (String.length p + String.length s - String.length p)%nat
    with (String.length s) by lia.
  induction p as [|a p IH].
  - change ("" +:+ s) with s. simpl. induction s as [|b s IHs]; simpl; [done|].
    by rewrite IHs.
  - change (String a p +:+ s) with (String a (p +:+ s)). simpl. exact IH.
Qed.

Lemma index_key_of_collection c f :
  Engine.index_of_collection (c +:+ "." +:+ f) c = true
  /\ slice_from (c +:+ "." +:+ f) (String.length c + 1) = f.
Proof.
  split.
  - unfold Engine.index_of_collection.
    rewrite slice_to_append, String.eqb_refl, length_append.
    apply andb_true_iff. split; [|done]. apply Nat.ltb_lt.
    change (String.length ("." +:+ f)) with (S (String.length f)). lia.
  - rewrite <- append_assoc.
    replace (String.length c + 1)%nat with (String.length (c +:+ "."))
      by (rewrite length_append; done).
    apply slice_from_append.
Qed.

(** X22: a [Put] whose data has the indexed field adds the id to the
    bucket of the formatted value, and takes nothing out of the index:
    the entry of the value the document had before stays. *)
Theorem engine_Put_indexes_document fmt threshold walFile r ops now c i data f :
  exists e,
    Engine.run fmt (boot threshold walFile r) ops = Done e
    /\ forall ix fv,
         Engine.indexes e !! (c +:+ "." +:+ f) = Some ix ->
         data !! f = Some fv ->
         exists ix',
           Engine.indexes (Engine.Put fmt e now true c i data).1 !! (c +:+ "." +:+ f)
           = Some ix'
           /\ forall v id,
                id ∈ Index.Get ix' v
                <-> (v = fmt fv /\ id = i) \/ id ∈ Index.Get ix v.
Proof.
  destruct (history_inv fmt threshold walFile r ops) as (e & Hrun & _).
  exists e. split; [done|]. intros ix fv Hix Hfv.
  destruct (index_key_of_collection c f) as [Hc Hf].
  unfold Engine.Put, WAL.WriteEntry. simpl.
  rewrite updateIndexes_lookup, Hix, Hc, Hf. simpl.
  assert (Hd : forall d, Data d = data ->
            exists ix',
              Some match Data d !! f with
                   | Some value => Index.Put ix (fmt value) i
                   | None => ix
                   end = Some ix'
              /\ forall v id, id ∈ Index.Get ix' v
                              <-> (v = fmt fv /\ id = i) \/ id ∈ Index.Get ix v).
  { intros d ->. rewrite Hfv. eexists. split; [done|]. intros v id. apply pairs_Put. }
  apply Hd. by destruct (Memtable.Get _ _ _) as [[d0|]|].
Qed.

(** X23: [Delete] takes the id out of every bucket of the indexes of
    the collection, and nothing else. *)
Theorem engine_Delete_unindexes_document fmt threshold walFile r ops now c i f :
  exists e,
    Engine.run fmt (boot threshold walFile r) ops = Done e
    /\ forall ix,
         Engine.indexes e !! (c +:+ "." +:+ f) = Some ix ->
         exists ix',
           Engine.indexes (Engine.Delete e now true c i).1 !! (c +:+ "." +:+ f)
           = Some ix'
           /\ forall v id,
                id ∈ Index.Get ix' v <-> id ∈ Index.Get ix v /\ id <> i.
Proof.
  destruct (history_inv fmt threshold walFile r ops) as (e & Hrun & _ & _ & Hok).
  exists e. split; [done|]. intros ix Hix.
  destruct (index_key_of_collection c f) as [Hc _].
  unfold Engine.Delete, WAL.WriteEntry. simpl.
  destruct (Memtable.Delete _ _) as [mt b]. simpl.
  rewrite removeFromIndexes_lookup, Hix, Hc. simpl.
  eexists. split; [done|]. intros v id. apply pairs_Delete. by apply (Hok _ _ Hix).
Qed.





(** ** Filters *)

Lemma SFeqb_sym x y : SFeqb x y = SFeqb y x.
Proof.
  unfold SFeqb, SFcompare.
  destruct x as [sx|sx| |sx mx ex], y as [sy|sy| |sy my ey]; try done;
    try (by destruct sx, sy).
  destruct sx, sy; try done.
  - rewrite (Z.compare_antisym ey ex). destruct (ey ?= ex)%Z; simpl; try done.
    change (Pos.compare_cont Eq mx my) with (Pos.compare mx my).
    change (Pos.compare_cont Eq my mx) with (Pos.compare my mx).
    rewrite (Pos.compare_antisym my mx). by destruct (Pos.compare my mx).
  - rewrite (Z.compare_antisym ey ex). destruct (ey ?= ex)%Z; simpl; try done.
    change (Pos.compare_cont Eq mx my) with (Pos.compare mx my).
    change (Pos.compare_cont Eq my mx) with (Pos.compare my mx).
    rewrite (Pos.compare_antisym my mx). by destruct (Pos.compare my mx).
Qed.

Lemma float_eqb_sym (x y : float) : PrimFloat.eqb x y = PrimFloat.eqb y x.
Proof. rewrite !FloatAxioms.eqb_spec. apply SFeqb_sym. Qed.

Lemma iface_eq_sym a b : iface_eq a b = iface_eq b a.
Proof.
  destruct a, b; simpl; try done.
  - f_equal. by destruct b, b0.
  - f_equal. rewrite Z.eqb_sym. f_equal. apply bool_decide_ext. split; congruence.
  - f_equal. apply float_eqb_sym.
  - f_equal. apply float_eqb_sym.
  - f_equal. apply String.eqb_sym.
Qed.

(** X25: the comparison of a document value with a filter value is
    symmetric, also where it panics. *)
Theorem valuesEqual_symmetric a b : valuesEqual a b = valuesEqual b a.
Proof.
  unfold valuesEqual. rewrite (iface_eq_sym a b).
  destruct (iface_eq b a) as [[]| |]; cbn [mbind outcome_bind]; try done.
  destruct a, b; cbn [toFloat64 andb]; try done;
    try (f_equal; apply float_eqb_sym).
  - f_equal. by destruct b, b0.
  - f_equal. apply String.eqb_sym.
Qed.

Lemma valuesEqual_never_fails a b err : valuesEqual a b <> Fail err.
Proof.
  destruct (uncomparable_pair a b) eqn:E.
  - apply valuesEqual_panics_iff in E. by rewrite E.
  - by rewrite valuesEqual_matches_spec.
Qed.

(** X26: [valuesEqual] panics exactly when both values are byte slices,
    both slices or both maps, and never returns an error. *)
Theorem valuesEqual_panics_exactly_on_same_uncomparable_type a b :
  (valuesEqual a b = Panic <-> uncomparable_pair a b = true)
  /\ forall err, valuesEqual a b <> Fail err.
Proof.
  split; [apply valuesEqual_panics_iff | intros err; apply valuesEqual_never_fails].
Qed.

Lemma matches_loop_true data l :
  Engine.matches_loop data l = Done true
  <-> Forall (fun kv => exists docValue,
                data !! kv.1 = Some docValue
                /\ valuesEqual docValue kv.2 = Done true) l.
Proof.
  induction l as [|[k v] l IH]; simpl.
  - split; [constructor | done].
  - rewrite Forall_cons, <- IH. simpl.
    destruct (data !! k) as [dv|]; simpl.
    + destruct (valuesEqual dv v) as [[]| |] eqn:E; simpl.
      * split; [intros H; split; [eauto | done] | by intros [_ H]].
      * split; [done|]. intros [(dv' & [= <-] & Hv) _]. congruence.
      * split; [done|]. intros [(dv' & [= <-] & Hv) _]. congruence.
      * split; [done|]. intros [(dv' & [= <-] & Hv) _]. congruence.
    + split; [done|]. by intros [(dv' & ? & _) _].
Qed.

(** X27: [matchesFilter] answers true exactly when the document has
    every key of the filter with a value [valuesEqual] finds equal; a
    true answer does not depend on the order the filter is iterated in. *)
Theorem matchesFilter_true_iff doc filter :
  Engine.matchesFilter doc filter = Done true
  <-> forall key value,
        filter !! key = Some value ->
        exists docValue,
          Data doc !! key = Some docValue /\ valuesEqual docValue value = Done true.
Proof.
  unfold Engine.matchesFilter. rewrite matches_loop_true.
  etrans; [|symmetry; apply (map_Forall_to_list
                (fun key value => exists docValue,
                   Data doc !! key = Some docValue
                   /\ valuesEqual docValue value = Done true) filter)].
  apply Forall_proper; [|done]. by intros [k v].
Qed.

(** ** Splitting a node *)






(** ** Write-ahead log *)

(** X29: of the entries written to a new log, [ReadEntries] reads back
    the first and no other: the decoder stops at the type definitions
    the second [WriteEntry] repeats. *)
Theorem ReadEntries_reads_back_first_entry (es : list WAL.WALEntry) :
  WAL.ReadEntries (write_all (WAL.NewWAL []) es) = take 1 es.
Proof. apply ReadEntries_after_writes. Qed.

(** ** Restart *)








